(** * StudyBuddy matchmaking server: a shallow embedding

    The server (express + ws, with a Redis backend and an in-memory
    fallback) is embedded as pure functions over an explicit state:
    the storage helpers, the tag utilities, [findMatch],
    [moderateContent], the WebSocket handlers and the report and block
    routes behind their rate limiters. The queue step of the HTTP
    transport's hook ([startMatching]) is embedded next to them.

    Conventions of the embedding.
    - A JavaScript string is a [string]; its characters are read as code
      units below 256 (Latin-1), which fixes [toLowerCase] and the
      character classes of the regular expressions.
    - [uuidv4()] and [Date.now()] are inputs of the handlers ([Env]).
    - A WebSocket is named by the client id of its connection; a handler
      returns the new state and the frames it sent, oldest first.
    - Every handler runs to completion before the next one starts
      (the awaits of one handler are not interleaved with another).
    - Values stored in Redis go through JSON.stringify / JSON.parse,
      which is the identity on the plain records stored here, so the
      Redis lists and keys hold the records themselves.
    - The expiry of sessions (the timer of the in-memory backend, the
      TTL of Redis) and the TTL of the Redis block keys are not part of
      the state; an expired session is a key absent from the store. The
      expiry timers of the in-memory block list are part of the state
      ([blockTimers]).
    - An exception raised inside a WebSocket handler leaves the handler
      and is caught by the message callback, which answers with an error
      frame; see [thrown]. *)

From Stdlib Require Import ZArith Ascii String.
From stdpp Require Import base decidable option list strings gmap.

Local Open Scope string_scope.
Local Open Scope list_scope.

(** ** Strings *)

Module Js.

(** String.prototype.toLowerCase on code units below 256: the ASCII
    capitals and the Latin-1 capitals (U+00C0 to U+00DE except the
    multiplication sign U+00D7) move up by 32. *)
Definition lower_ascii (c : ascii) : ascii :=
  let n := nat_of_ascii c in
  if ((65 <=? n)%nat && (n <=? 90)%nat)
     || ((192 <=? n)%nat && (n <=? 222)%nat && negb (n =? 215)%nat)
  then ascii_of_nat (n + 32) else c.

Fixpoint toLowerCase (s : string) : string :=
  match s with
  | EmptyString => EmptyString
  | String c s' => String (lower_ascii c) (toLowerCase s')
  end.

(** Array.prototype.join. *)
Fixpoint join (sep : string) (l : list string) : string :=
  match l with
  | [] => ""
  | [x] => x
  | x :: rest => x +:+ sep +:+ join sep rest
  end.

(** [new Set(array)]: the members in insertion order, each once (the
    first occurrence decides the position). *)
Definition set_add (acc : list string) (x : string) : list string :=
  if decide (x ∈ acc) then acc else acc ++ [x].

Definition new_Set (l : list string) : list string :=
  foldl set_add [] l.

(** Truthiness of a string-or-null value: null and the empty string are
    falsy. *)
Definition truthy (v : option string) : bool :=
  match v with
  | None => false
  | Some s => negb (String.eqb s "")
  end.

(** The JSON values a request body may carry in a field; [JUndefined]
    is an absent field. *)
#[warnings="-register-all"]
Inductive JsVal :=
| JUndefined
| JNull
| JBool (b : bool)
| JNum (n : Z)
| JStr (s : string)
| JArr (l : list JsVal)
| JObj (fields : list (string * JsVal)).

Definition truthy_val (v : JsVal) : bool :=
  match v with
  | JUndefined | JNull => false
  | JBool b => b
  | JNum n => negb (n =? 0)%Z
  | JStr s => negb (String.eqb s "")
  | JArr _ | JObj _ => true
  end.

End Js.

(** ** Data model (src/types/index.ts) *)

Record User := mkUser {
  user_id : string;
  user_tags : list string
}.

#[global] Instance User_eq_dec : EqDecision User.
Proof. solve_decision. Defined.

Inductive MessageType := TyMessage | TySystem.

#[global] Instance MessageType_eq_dec : EqDecision MessageType.
Proof. solve_decision. Defined.

Record ChatMessage := mkChatMessage {
  msg_id : string;
  msg_content : string;
  msg_userId : string;
  msg_timestamp : Z;
  msg_type : MessageType
}.

Inductive VideoStatus := Pending | Accepted | Declined.

(** [requesterId] is absent in the record that [handleVideoResponse]
    builds when it accepts a request that was never stored. *)
Record VideoRequested := mkVideoRequested {
  requesterId : option string;
  status : VideoStatus
}.

Record MatchSession := mkSession {
  session_id : string;
  users : list User;
  sharedTags : list string;
  createdAt : Z;
  messages : list ChatMessage;
  videoRequested : option VideoRequested
}.

Record Report := mkReport {
  report_id : string;
  report_sessionId : Js.JsVal;
  report_reason : Js.JsVal;
  report_messages : Js.JsVal;
  report_timestamp : Z;
  report_ip : string
}.

(** ** Utility functions *)

Definition calculateMatchScore (tags1 tags2 : list string) : nat :=
  let set1 := Js.new_Set (map Js.toLowerCase tags1) in
  let set2 := Js.new_Set (map Js.toLowerCase tags2) in
  let intersection := Js.new_Set (filter (λ tag, tag ∈ set2) set1) in
  length intersection.

Definition getSharedTags (tags1 tags2 : list string) : list string :=
  let set1 := Js.new_Set (map Js.toLowerCase tags1) in
  let set2 := Js.new_Set (map Js.toLowerCase tags2) in
  let shared := filter (λ tag, tag ∈ set2) set1 in
  filter (λ tag, Js.toLowerCase tag ∈ shared) tags1.

(** ** The store: Redis and the in-memory fallback *)

(** [memoryStore]. [queue] is a JavaScript array: index 0 is the head of
    the list, [push] and [pop] act on its last element. [blockTimers]
    holds the timers that [blockUser] has armed on this backend and that
    have not fired yet, oldest first: the pair key to delete and the
    delay in milliseconds the timer runs with. *)
Record MemoryStore := mkMemoryStore {
  sessions : gmap string MatchSession;
  queue : list User;
  blockedPairs : gset string;
  reports : list Report;
  blockTimers : list (string * Z)
}.

(** A string value of Redis: the JSON of a session, written by
    [setInStore], or the text [true], written by [blockUser]. *)
Inductive RedisString :=
| RSession (session : MatchSession)
| RTrue.

(** The Redis database. [stringKeys] is the key space of the string
    values: the keys [session:<id>] and [blocked:<a>:<b>] live side by
    side in it. The two lists have the fixed keys [matchingQueue] and
    [reports]; their left end (LPUSH) is the head of the list and their
    right end (RPOP) its last element. A list command on a key that
    holds a string, or GET on a key that holds a list, raises WRONGTYPE
    in Redis; the server names its lists [matchingQueue] and [reports]
    and its strings [session:...] and [blocked:...], so no command of
    the server meets a value of the other kind, and the embedding has no
    such error. *)
Record Redis := mkRedis {
  stringKeys : gmap string RedisString;
  matchingQueue : list User;
  reportsList : list Report
}.

Record Store := mkStore {
  useRedis : bool;
  redisClient : Redis;
  memoryStore : MemoryStore
}.

Definition set_queue (q : list User) (m : MemoryStore) : MemoryStore :=
  mkMemoryStore (sessions m) q (blockedPairs m) (reports m) (blockTimers m).

Definition set_sessions (ss : gmap string MatchSession) (m : MemoryStore)
  : MemoryStore :=
  mkMemoryStore ss (queue m) (blockedPairs m) (reports m) (blockTimers m).

Definition set_reports (rs : list Report) (m : MemoryStore) : MemoryStore :=
  mkMemoryStore (sessions m) (queue m) (blockedPairs m) rs (blockTimers m).

Definition set_matchingQueue (q : list User) (r : Redis) : Redis :=
  mkRedis (stringKeys r) q (reportsList r).

Definition set_stringKeys (ks : gmap string RedisString) (r : Redis) : Redis :=
  mkRedis ks (matchingQueue r) (reportsList r).

Definition set_reportsList (rs : list Report) (r : Redis) : Redis :=
  mkRedis (stringKeys r) (matchingQueue r) rs.

Definition with_memory (f : MemoryStore → MemoryStore) (st : Store) : Store :=
  mkStore (useRedis st) (redisClient st) (f (memoryStore st)).

Definition with_redis (f : Redis → Redis) (st : Store) : Store :=
  mkStore (useRedis st) (f (redisClient st)) (memoryStore st).

(** Removing the last element: Array.prototype.pop and RPOP. *)
Definition pop_last {A} (l : list A) : option A * list A :=
  match last l with
  | Some x => (Some x, removelast l)
  | None => (None, l)
  end.

(** *** Storage helpers *)

(** On Redis, GET and JSON.parse. Every caller passes a key
    [session:<id>], which holds the JSON of a session or nothing; under
    a key that [blockUser] wrote the text parses to [true], which is no
    session, and the embedding answers absent there. *)
Definition getFromStore (key : string) (st : Store) : option MatchSession :=
  if useRedis st
  then match stringKeys (redisClient st) !! key with
       | Some (RSession session) => Some session
       | Some RTrue | None => None
       end
  else sessions (memoryStore st) !! key.

(** On Redis, SET or SETEX: the key holds the new string whatever it
    held before, a block marker or a list included (a list under that
    key is gone). *)
Definition setInStore (key : string) (value : MatchSession) (st : Store)
  : Store :=
  if useRedis st
  then with_redis
         (λ r, mkRedis (<[key := RSession value]> (stringKeys r))
                 (if decide (key = "matchingQueue") then []
                  else matchingQueue r)
                 (if decide (key = "reports") then [] else reportsList r)) st
  else with_memory (λ m, set_sessions (<[key := value]> (sessions m)) m) st.

Definition addToQueue (user : User) (st : Store) : Store :=
  if useRedis st
  then with_redis (λ r, set_matchingQueue (user :: matchingQueue r) r) st
  else with_memory (λ m, set_queue (queue m ++ [user]) m) st.

Definition getFromQueue (st : Store) : option User * Store :=
  if useRedis st
  then let '(u, q) := pop_last (matchingQueue (redisClient st)) in
       (u, with_redis (set_matchingQueue q) st)
  else let '(u, q) := pop_last (queue (memoryStore st)) in
       (u, with_memory (set_queue q) st).

Definition getQueueLength (st : Store) : nat :=
  if useRedis st then length (matchingQueue (redisClient st))
  else length (queue (memoryStore st)).

(** The Redis branch of [removeFromQueue]: [n] rounds of RPOP, each
    followed by LPUSH unless the popped user has the id to remove. The
    script reads [.id] of what RPOP returned, so a round on an empty
    list would raise; the loop runs LLEN rounds and never gets there, and
    the embedding stops the loop in that case. *)
Fixpoint rotate_remove (n : nat) (userId : string) (q : list User)
  : list User :=
  match n with
  | O => q
  | S n' =>
      match pop_last q with
      | (Some parsedUser, q') =>
          if decide (user_id parsedUser ≠ userId)
          then rotate_remove n' userId (parsedUser :: q')
          else rotate_remove n' userId q'
      | (None, q') => q'
      end
  end.

(** Array.prototype.findIndex, with [None] for -1. *)
Fixpoint findIndex {A} (p : A → bool) (l : list A) : option nat :=
  match l with
  | [] => None
  | x :: l' => if p x then Some 0 else S <$> findIndex p l'
  end.

Definition removeFromQueue (userId : string) (st : Store) : Store :=
  if useRedis st
  then with_redis
         (λ r, set_matchingQueue
                 (rotate_remove (length (matchingQueue r)) userId
                    (matchingQueue r)) r) st
  else
    match findIndex (λ user, bool_decide (user_id user = userId))
            (queue (memoryStore st)) with
    | Some index => with_memory (λ m, set_queue (delete index (queue m)) m) st
    | None => st
    end.

(** *** The block list *)

Definition isBlocked (userId1 userId2 : string) (st : Store) : bool :=
  let blockKey := "blocked:" +:+ userId1 +:+ ":" +:+ userId2 in
  let reverseBlockKey := "blocked:" +:+ userId2 +:+ ":" +:+ userId1 in
  if useRedis st
  then bool_decide (is_Some (stringKeys (redisClient st) !! blockKey))
       || bool_decide (is_Some (stringKeys (redisClient st) !! reverseBlockKey))
  else bool_decide (userId1 +:+ ":" +:+ userId2 ∈ blockedPairs (memoryStore st))
       || bool_decide (userId2 +:+ ":" +:+ userId1 ∈ blockedPairs (memoryStore st)).

(** ** The matchmaker *)

(** Array.prototype.sort with the comparator [b.score - a.score]: a
    stable sort by decreasing score, here by insertion from the right. *)
Fixpoint insert_by_score (x : User * nat) (l : list (User * nat))
  : list (User * nat) :=
  match l with
  | [] => [x]
  | y :: l' => if (y.2 <=? x.2)%nat then x :: y :: l'
               else y :: insert_by_score x l'
  end.

Definition sort_by_score (l : list (User * nat)) : list (User * nat) :=
  foldr insert_by_score [] l.

(** The drain loop of [findMatch]: [n] is the number of rounds left,
    [matches] the candidates held so far. *)
Fixpoint drain (user : User) (n : nat) (matches : list (User * nat))
  (st : Store) : list (User * nat) * Store :=
  match n with
  | O => (matches, st)
  | S n' =>
      match getFromQueue st with
      | (None, st1) => (matches, st1)
      | (Some potentialMatch, st1) =>
          if bool_decide (user_id potentialMatch = user_id user)
             || isBlocked (user_id user) (user_id potentialMatch) st1
          then drain user n' matches (addToQueue potentialMatch st1)
          else
            let score :=
              calculateMatchScore (user_tags user) (user_tags potentialMatch) in
            if (0 <? score)%nat
            then drain user n' (matches ++ [(potentialMatch, score)]) st1
            else drain user n' matches (addToQueue potentialMatch st1)
      end
  end.

Definition findMatch (user : User) (st : Store) : option User * Store :=
  let queueLength := getQueueLength st in
  let '(matches, st') := drain user queueLength [] st in
  match sort_by_score matches with
  | m :: _ => (Some m.1, st')
  | [] => (None, st')
  end.

(** ** Regular expressions

    The fragment of JavaScript regular expressions the personal-info
    patterns use: character classes, the word boundary, sequence,
    alternation, the optional item and the star of a character class.
    [RegExp.prototype.test] only asks whether some match exists, so the
    greedy order of the alternatives plays no part. *)

Module Regex.

Inductive regex :=
| Class (p : ascii → bool)
| WordBoundary
| Seq (r1 r2 : regex)
| Alt (r1 r2 : regex)
| Opt (r : regex)
| StarClass (p : ascii → bool).

Definition in_range (lo hi : nat) (c : ascii) : bool :=
  (lo <=? nat_of_ascii c)%nat && (nat_of_ascii c <=? hi)%nat.

Definition chr (x : ascii) (c : ascii) : bool := Ascii.eqb x c.

(** [\d], [\w] and [\s] (tab to carriage return, space, no-break space). *)
Definition digit (c : ascii) : bool := in_range 48 57 c.
Definition upper (c : ascii) : bool := in_range 65 90 c.
Definition lower (c : ascii) : bool := in_range 97 122 c.
Definition word (c : ascii) : bool :=
  upper c || lower c || digit c || chr "_" c.
Definition space (c : ascii) : bool :=
  in_range 9 13 c || chr " " c || (nat_of_ascii c =? 160)%nat.

Definition is_word_at (c : option ascii) : bool :=
  match c with Some c => word c | None => false end.

(** [star p prev s k]: zero or more characters of the class [p], then
    the continuation [k], which receives the character before the
    position reached and the rest of the input. *)
Fixpoint star (p : ascii → bool) (prev : option ascii) (s : list ascii)
  (k : option ascii → list ascii → bool) : bool :=
  k prev s
  || match s with
     | c :: s' => p c && star p (Some c) s' k
     | [] => false
     end.

Fixpoint matches (r : regex) (prev : option ascii) (s : list ascii)
  (k : option ascii → list ascii → bool) : bool :=
  match r with
  | Class p =>
      match s with
      | c :: s' => p c && k (Some c) s'
      | [] => false
      end
  | WordBoundary => xorb (is_word_at prev) (is_word_at (head s)) && k prev s
  | Seq r1 r2 => matches r1 prev s (λ prev' s', matches r2 prev' s' k)
  | Alt r1 r2 => matches r1 prev s k || matches r2 prev s k
  | Opt r1 => matches r1 prev s k || k prev s
  | StarClass p => star p prev s k
  end.

(** A match may start at any position. *)
Fixpoint search (r : regex) (prev : option ascii) (s : list ascii) : bool :=
  matches r prev s (λ _ _, true)
  || match s with
     | c :: s' => search r (Some c) s'
     | [] => false
     end.

Definition test (r : regex) (content : string) : bool :=
  search r None (list_ascii_of_string content).

(** Derived forms. *)
Fixpoint seqs (l : list regex) : regex :=
  match l with
  | [] => Opt (Class (λ _, false))
  | [r] => r
  | r :: l' => Seq r (seqs l')
  end.

Fixpoint alts (l : list regex) : regex :=
  match l with
  | [] => Class (λ _, false)
  | [r] => r
  | r :: l' => Alt r (alts l')
  end.

Definition plus (p : ascii → bool) : regex := Seq (Class p) (StarClass p).

Definition times (n : nat) (r : regex) : regex := seqs (replicate n r).

(** A literal under the [i] flag: a small letter of the pattern matches
    itself and its capital. *)
Definition ichar (x : ascii) (c : ascii) : bool :=
  chr x c || (lower x && chr (ascii_of_nat (nat_of_ascii x - 32)) c).

Definition iliteral (s : string) : regex :=
  seqs (map (λ x, Class (ichar x)) (list_ascii_of_string s)).

Definition literal (s : string) : regex :=
  seqs (map (λ x, Class (chr x)) (list_ascii_of_string s)).

End Regex.

(** ** Moderation *)

(** [filter] is [new Filter()] of the package [bad-words] (version 3),
    a dependency that is not part of the repository. The embedding
    follows the package's [clean], [isProfane] and [replaceWord] under
    the default options; the word list of the package is a parameter. *)
Class BadWordsFilter := { badwords : list string }.

Module BadWords.

(** The pieces of [string.split(/\b/)]: the maximal runs of word
    characters and of other characters, in order. *)
Fixpoint runs (s : list ascii) : list (list ascii) :=
  match s with
  | [] => []
  | c :: s' =>
      match runs s' with
      | (d :: piece) :: pieces =>
          if Bool.eqb (Regex.word c) (Regex.word d)
          then (c :: d :: piece) :: pieces
          else [c] :: (d :: piece) :: pieces
      | _ => [[c]]
      end
  end.

(** The empty string splits into one empty piece. *)
Definition split (string : string) : list String.string :=
  match list_ascii_of_string string with
  | [] => [""]
  | s => map string_of_list_ascii (runs s)
  end.

(** A character of the word under the flag [i]. *)
Definition fold_case (x c : ascii) : bool :=
  Ascii.eqb (Js.lower_ascii x) (Js.lower_ascii c).

(** [new RegExp(`\\b${word.replace(/(\W)/g, '\\$1')}\\b`, 'gi')]: the
    word taken literally, between two word boundaries, ignoring case. *)
Definition wordExp (word : string) : Regex.regex :=
  Regex.seqs
    (Regex.WordBoundary
     :: map (λ x, Regex.Class (fold_case x)) (list_ascii_of_string word)
     ++ [Regex.WordBoundary]).

(** [string.replace(/[^a-zA-Z0-9|\$|\@]|\^/g, '').replace(/\w/g, '*')]:
    letters, digits, [|], [$] and [@] are kept, and what is kept of the
    word characters becomes the place holder. *)
Definition replaceWord (string : string) : String.string :=
  string_of_list_ascii
    (map (λ c, if Regex.word c then "*"%char else c)
       (filter (λ c, Regex.upper c || Regex.lower c || Regex.digit c
                     || Regex.chr "|" c || Regex.chr "$" c
                     || Regex.chr "@" c)
          (list_ascii_of_string string))).

Section Filter.
Context `{BadWordsFilter}.

(** No word is excluded by default. *)
Definition isProfane (string : string) : bool :=
  existsb (λ word, Regex.test (wordExp word) string) badwords.

(** The pieces are joined by [/\b/.exec(string)[0]], the empty string
    matched at the first word boundary; on a text without a word
    boundary [exec] answers null and the subscript raises a TypeError
    ([None]). *)
Definition clean (string : string) : option String.string :=
  let pieces :=
    map (λ word, if isProfane word then replaceWord word else word)
      (split string) in
  if Regex.test Regex.WordBoundary string
  then Some (Js.join "" pieces)
  else None.

End Filter.
End BadWords.

Record Moderated := mkModerated {
  mod_content : string;
  mod_flagged : bool;
  mod_original : string
}.

Module Patterns.
Import Regex.

(** [/\b\d{3}[-.]?\d{3}[-.]?\d{4}\b/] *)
Definition phone : regex :=
  seqs [WordBoundary; times 3 (Class digit);
        Opt (Class (λ c, chr "-" c || chr "." c)); times 3 (Class digit);
        Opt (Class (λ c, chr "-" c || chr "." c)); times 4 (Class digit);
        WordBoundary].

(** [/\b[A-Za-z0-9._%+-]+@[A-Za-z0-9.-]+\.[A-Z|a-z]{2,}\b/] *)
Definition email : regex :=
  seqs [WordBoundary;
        plus (λ c, upper c || lower c || digit c || chr "." c || chr "_" c
                   || chr "%" c || chr "+" c || chr "-" c);
        Class (chr "@");
        plus (λ c, upper c || lower c || digit c || chr "." c || chr "-" c);
        Class (chr ".");
        times 2 (Class (λ c, upper c || chr "|" c || lower c));
        StarClass (λ c, upper c || chr "|" c || lower c);
        WordBoundary].

(** [/\bhttps?:\/\/[^\s]+\b/g]; the literal is evaluated anew at each
    call, so [test] starts from [lastIndex] 0. *)
Definition url : regex :=
  seqs [WordBoundary; literal "http"; Opt (Class (chr "s")); literal "://";
        plus (λ c, negb (space c)); WordBoundary].

(** [/\b(?:instagram|snapchat|discord|telegram|whatsapp|facebook|twitter|tiktok)\b/i] *)
Definition social : regex :=
  seqs [WordBoundary;
        alts (map iliteral ["instagram"; "snapchat"; "discord"; "telegram";
                            "whatsapp"; "facebook"; "twitter"; "tiktok"]);
        WordBoundary].

Definition personalInfoPatterns : list regex := [phone; email; url; social].

End Patterns.

Section Moderation.
Context `{BadWordsFilter}.

(** [filter.clean] is the first call of the function: when it raises,
    [moderateContent] raises ([None]). *)
Definition moderateContent (content : string) : option Moderated :=
  match BadWords.clean content with
  | None => None
  | Some cleaned =>
      let flagged :=
        existsb (λ pattern, Regex.test pattern content)
          Patterns.personalInfoPatterns in
      Some {| mod_content := cleaned;
              mod_flagged := flagged || negb (String.eqb cleaned content);
              mod_original := content |}
  end.

End Moderation.

(** ** Connections and WebSocket handlers *)

(** An entry of the [clients] map. The map is iterated in insertion
    order by the handlers, so it is a list of bindings with distinct
    keys. *)
Record Client := mkClient {
  userId : option string;
  sessionId : option string
}.

Definition set_userId (v : option string) (c : Client) : Client :=
  mkClient v (sessionId c).

Definition set_sessionId (v : option string) (c : Client) : Client :=
  mkClient (userId c) v.

Fixpoint clients_get (clientId : string) (cl : list (string * Client))
  : option Client :=
  match cl with
  | [] => None
  | (k, c) :: cl' => if decide (k = clientId) then Some c
                     else clients_get clientId cl'
  end.

(** Assignment to a field of the client object registered under
    [clientId]: the binding keeps its position. *)
Fixpoint clients_update (clientId : string) (f : Client → Client)
  (cl : list (string * Client)) : list (string * Client) :=
  match cl with
  | [] => []
  | (k, c) :: cl' => if decide (k = clientId) then (k, f c) :: cl'
                     else (k, c) :: clients_update clientId f cl'
  end.

(** [clients.set(clientId, c)]. *)
Definition clients_set (clientId : string) (c : Client)
  (cl : list (string * Client)) : list (string * Client) :=
  match clients_get clientId cl with
  | Some _ => clients_update clientId (λ _, c) cl
  | None => cl ++ [(clientId, c)]
  end.

(** [clients.delete(clientId)]. *)
Definition clients_delete (clientId : string) (cl : list (string * Client))
  : list (string * Client) :=
  filter (λ kc, kc.1 ≠ clientId) cl.

(** [[...clients.values()].find(c => c.userId === id)], with the key of
    the client found. *)
Definition find_client (uid : string) (cl : list (string * Client))
  : option (string * Client) :=
  snd <$> list_find (λ kc, userId kc.2 = Some uid) cl.

(** [session.users.find(u => u.id !== client.userId)]. *)
Definition find_other (client : Client) (us : list User) : option User :=
  snd <$> list_find (λ u, Some (user_id u) ≠ userId client) us.

(** Frames sent by the server. *)
Inductive ServerMessage :=
| match_found (payload : MatchSession)
| chat_message (payload : ChatMessage)
| video_request (requester : option string) (offer : Js.JsVal)
| video_response (accepted : option bool) (answer : Js.JsVal)
| user_disconnected
| session_ended
| queue_left (success : bool)
| error (message : string) (code : option string).

Definition Sent : Type := list (string * ServerMessage).

(** The state of the process: the store, the connection registry and the
    pending 60-second timers, each holding the client id it was armed
    for. *)
Record State := mkState {
  store : Store;
  clients : list (string * Client);
  timers : list string
}.

(** The values [uuidv4()] and [Date.now()] return during one handler, in
    call order. *)
Record Env := mkEnv {
  uuid1 : string;
  uuid2 : string;
  now1 : Z;
  now2 : Z
}.

(** Send to the peer of [client] in [session], if it has a registered
    connection. *)
Definition notify_other (client : Client) (session : MatchSession)
  (cl : list (string * Client)) (m : ServerMessage) : Sent :=
  match find_other client (users session) with
  | Some otherUser =>
      match find_client (user_id otherUser) cl with
      | Some (otherId, _) => [(otherId, m)]
      | None => []
      end
  | None => []
  end.

Definition matched_message (sharedTags : list string) : string :=
  "You've been matched! You both study: " +:+ Js.join ", " sharedTags.

Definition timeout_message : string :=
  "No matches found. Try selecting more subjects or try again later.".

(** [wss.on('connection')]: the client id is a fresh uuid. *)
Definition handleConnection (clientId : string) (s : State) : State :=
  mkState (store s) (clients_set clientId (mkClient None None) (clients s))
    (timers s).

(** An exception raised inside a handler. It leaves
    [handleWebSocketMessage] and is caught by the callback of the
    connection's message event (part_000:278-289), which sends this
    frame on the connection; the handler that can raise does so before
    it has changed the state. *)
Definition thrown (clientId : string) (s : State) : State * Sent :=
  (s, [(clientId, error "Invalid message format" None)]).

Section Handlers.
Context `{BadWordsFilter}.

Definition handleJoinQueue (env : Env) (clientId : string) (user : User)
  (s : State) : State * Sent :=
  match clients_get clientId (clients s) with
  | None => (s, [])
  | Some _ =>
      let cl1 := clients_update clientId (set_userId (Some (user_id user)))
                   (clients s) in
      let '(found, st1) := findMatch user (store s) in
      match found with
      | Some match_ =>
          let sid := uuid1 env in
          let shared := getSharedTags (user_tags user) (user_tags match_) in
          let session :=
            {| session_id := sid;
               users := [user; match_];
               sharedTags := shared;
               createdAt := now1 env;
               messages :=
                 [ {| msg_id := uuid2 env;
                      msg_content := matched_message shared;
                      msg_userId := "system";
                      msg_timestamp := now2 env;
                      msg_type := TySystem |} ];
               videoRequested := None |} in
          let st2 := setInStore ("session:" +:+ sid) session st1 in
          let cl2 := clients_update clientId (set_sessionId (Some sid)) cl1 in
          match find_client (user_id match_) cl2 with
          | Some (matchId, _) =>
              (mkState st2
                 (clients_update matchId (set_sessionId (Some sid)) cl2)
                 (timers s),
               [(clientId, match_found session); (matchId, match_found session)])
          | None =>
              (mkState st2 cl2 (timers s), [(clientId, match_found session)])
          end
      | None =>
          (mkState (addToQueue user st1) cl1 (timers s ++ [clientId]), [])
      end
  end.

(** The callback of the timer armed by [handleJoinQueue], when it
    fires. *)
Definition queueTimeout (clientId : string) (s : State) : State * Sent :=
  match list_find (λ t, t = clientId) (timers s) with
  | None => (s, [])
  | Some (i, _) =>
      let s' := mkState (store s) (clients s) (delete i (timers s)) in
      match clients_get clientId (clients s) with
      | Some stillWaiting =>
          if negb (Js.truthy (sessionId stillWaiting))
          then (s', [(clientId, error timeout_message (Some "MATCHING_TIMEOUT"))])
          else (s', [])
      | None => (s', [])
      end
  end.

Definition handleLeaveQueue (clientId : string) (s : State) : State * Sent :=
  match clients_get clientId (clients s) with
  | None => (s, [])
  | Some client =>
      match userId client with
      | Some uid =>
          if Js.truthy (Some uid)
          then (mkState (removeFromQueue uid (store s)) (clients s) (timers s),
                [(clientId, queue_left true)])
          else (s, [])
      | None => (s, [])
      end
  end.

(** The session of the connection, for the handlers that start with the
    guards [!client || !client.sessionId] and [!session]. *)
Definition current_session (clientId : string) (s : State)
  : option (Client * string * MatchSession) :=
  match clients_get clientId (clients s) with
  | None => None
  | Some client =>
      match sessionId client with
      | Some sid =>
          if Js.truthy (Some sid)
          then match getFromStore ("session:" +:+ sid) (store s) with
               | Some session => Some (client, sid, session)
               | None => None
               end
          else None
      | None => None
      end
  end.

Definition set_messages (ms : list ChatMessage) (x : MatchSession)
  : MatchSession :=
  mkSession (session_id x) (users x) (sharedTags x) (createdAt x) ms
    (videoRequested x).

Definition set_videoRequested (v : option VideoRequested) (x : MatchSession)
  : MatchSession :=
  mkSession (session_id x) (users x) (sharedTags x) (createdAt x)
    (messages x) v.

Definition handleChatMessage (env : Env) (clientId : string)
  (payload : ChatMessage) (s : State) : State * Sent :=
  match current_session clientId s with
  | None => (s, [])
  | Some (client, sid, session) =>
      match moderateContent (msg_content payload) with
      | None => thrown clientId s
      | Some moderated =>
          let message :=
            {| msg_id := msg_id payload;
               msg_content := mod_content moderated;
               msg_userId := msg_userId payload;
               msg_timestamp := now1 env;
               msg_type := msg_type payload |} in
          let session' :=
            set_messages (messages session ++ [message]) session in
          (mkState (setInStore ("session:" +:+ sid) session' (store s))
             (clients s) (timers s),
           notify_other client session' (clients s) (chat_message message))
      end
  end.

Definition handleVideoRequest (clientId : string)
  (payload_requesterId : option string) (payload_offer : Js.JsVal)
  (s : State) : State * Sent :=
  match current_session clientId s with
  | None => (s, [])
  | Some (client, sid, session) =>
      let session' :=
        set_videoRequested
          (Some {| requesterId := payload_requesterId; status := Pending |})
          session in
      (mkState (setInStore ("session:" +:+ sid) session' (store s))
         (clients s) (timers s),
       notify_other client session' (clients s)
         (video_request payload_requesterId payload_offer))
  end.

Definition handleVideoResponse (clientId : string)
  (payload_accepted : option bool) (payload_answer : Js.JsVal)
  (s : State) : State * Sent :=
  match current_session clientId s with
  | None => (s, [])
  | Some (client, sid, session) =>
      let session' :=
        match payload_accepted with
        | Some true =>
            set_videoRequested
              (Some {| requesterId := videoRequested session ≫= requesterId;
                       status := Accepted |}) session
        | Some false => set_videoRequested None session
        | None => session
        end in
      (mkState (setInStore ("session:" +:+ sid) session' (store s))
         (clients s) (timers s),
       notify_other client session' (clients s)
         (video_response payload_accepted payload_answer))
  end.

Definition handleSessionEnd (clientId : string) (s : State) : State * Sent :=
  match current_session clientId s with
  | None => (s, [])
  | Some (client, sid, session) =>
      match find_other client (users session) with
      | Some otherUser =>
          match find_client (user_id otherUser) (clients s) with
          | Some (otherId, _) =>
              (mkState (store s)
                 (clients_update clientId (set_sessionId None)
                    (clients_update otherId (set_sessionId None) (clients s)))
                 (timers s),
               [(otherId, session_ended)])
          | None =>
              (mkState (store s)
                 (clients_update clientId (set_sessionId None) (clients s))
                 (timers s), [])
          end
      | None =>
          (mkState (store s)
             (clients_update clientId (set_sessionId None) (clients s))
             (timers s), [])
      end
  end.

(** Messages of a client, by [type]. *)
Inductive ClientMessage :=
| join_queue (user : User)
| leave_queue
| chat (payload : ChatMessage)
| video_request_from (requester : option string) (offer : Js.JsVal)
| video_response_from (accepted : option bool) (answer : Js.JsVal)
| end_session
| unknown_type.

Definition handleWebSocketMessage (env : Env) (clientId : string)
  (message : ClientMessage) (s : State) : State * Sent :=
  match clients_get clientId (clients s) with
  | None => (s, [])
  | Some _ =>
      match message with
      | join_queue user => handleJoinQueue env clientId user s
      | leave_queue => handleLeaveQueue clientId s
      | chat payload => handleChatMessage env clientId payload s
      | video_request_from r o => handleVideoRequest clientId r o s
      | video_response_from a p => handleVideoResponse clientId a p s
      | end_session => handleSessionEnd clientId s
      | unknown_type => (s, [(clientId, error "Unknown message type" None)])
      end
  end.

End Handlers.

(** ** POST /api/report *)

Record ReportBody := mkReportBody {
  body_sessionId : Js.JsVal;
  body_reason : Js.JsVal;
  body_messages : Js.JsVal
}.

Inductive Response :=
| json_success (message : string)
| json_error (code : nat) (message : string).

(** The handler function of POST /api/report, which runs when the rate
    limiters have let the request through ([apiReport] is the route with
    its limiters); [req.body] is the object parsed by
    [express.json()]. *)
Definition postReport (env : Env) (ip : string) (body : ReportBody)
  (st : Store) : Store * Response :=
  let report :=
    {| report_id := uuid1 env;
       report_sessionId := body_sessionId body;
       report_reason := body_reason body;
       report_messages :=
         if Js.truthy_val (body_messages body) then body_messages body
         else Js.JArr [];
       report_timestamp := now1 env;
       report_ip := ip |} in
  let st' :=
    if useRedis st
    then with_redis (λ r, set_reportsList (report :: reportsList r) r) st
    else with_memory (λ m, set_reports (reports m ++ [report]) m) st in
  (st', json_success "Report submitted successfully").

(** The stored reports, oldest first. *)
Definition stored_reports (st : Store) : list Report :=
  if useRedis st then reverse (reportsList (redisClient st))
  else reports (memoryStore st).

(** ** Blocking and the remaining entry points *)

(** [setTimeout(callback, after)] of Node: a delay that is not between
    1 and 2^31 - 1 milliseconds is set to 1 millisecond. *)
Definition TIMEOUT_MAX : Z := 2147483647.

Definition setTimeout_delay (after : Z) : Z :=
  if (1 <=? after)%Z && (after <=? TIMEOUT_MAX)%Z then after else 1%Z.

(** [blockUser]. On Redis, SETEX of the key with a TTL of 30 days in
    seconds. In memory, [Set.add] of the pair key and a timer that
    deletes the key after [30 * 24 * 60 * 60 * 1000] milliseconds, a
    delay that [setTimeout] does not take as it is. *)
Definition blockUser (userId1 userId2 : string) (st : Store) : Store :=
  let blockKey := "blocked:" +:+ userId1 +:+ ":" +:+ userId2 in
  if useRedis st
  then with_redis (λ r, set_stringKeys (<[blockKey := RTrue]> (stringKeys r)) r)
         st
  else with_memory
         (λ m, mkMemoryStore (sessions m) (queue m)
                 ({[userId1 +:+ ":" +:+ userId2]} ∪ blockedPairs m) (reports m)
                 (blockTimers m
                  ++ [(userId1 +:+ ":" +:+ userId2,
                       setTimeout_delay (30 * 24 * 60 * 60 * 1000))])) st.

(** The oldest pending timer of [blockUser] fires: its pair key is
    deleted from the set. *)
Definition blockTimerFires (st : Store) : Store :=
  with_memory
    (λ m, match blockTimers m with
          | [] => m
          | (pairKey, _) :: timers' =>
              mkMemoryStore (sessions m) (queue m)
                (blockedPairs m ∖ {[pairKey]}) (reports m) timers'
          end) st.

(** The handler function of POST /api/block, which runs when the rate
    limiter has let the request through ([apiBlock] is the route with
    its limiter); [sessionId] and [blockedUserId] are the two fields of
    the body. *)
Definition postBlock (sessionId blockedUserId : string) (st : Store)
  : Store * Response :=
  match getFromStore ("session:" +:+ sessionId) st with
  | None => (st, json_error 404 "Session not found")
  | Some session =>
      match list_find (λ u, user_id u ≠ blockedUserId) (users session) with
      | None => (st, json_error 400 "Invalid user")
      | Some (_, blockerUser) =>
          (blockUser (user_id blockerUser) blockedUserId st,
           json_success "User blocked successfully")
      end
  end.

(** [ws.on('close')]: the peer of a connection in a stored session is
    told, then the connection leaves the registry. *)
Definition handleClose (clientId : string) (s : State) : State * Sent :=
  let sent :=
    match clients_get clientId (clients s) with
    | Some client =>
        match sessionId client with
        | Some sid =>
            if Js.truthy (Some sid)
            then match getFromStore ("session:" +:+ sid) (store s) with
                 | Some session =>
                     notify_other client session (clients s) user_disconnected
                 | None => []
                 end
            else []
        | None => []
        end
    | None => []
    end in
  (mkState (store s) (clients_delete clientId (clients s)) (timers s), sent).

(** ** Rate limiting and the API routes

    [rateLimit] of the package [express-rate-limit], a dependency that
    is not part of the repository, as [createRateLimit] configures it
    (part_000:58-68): a limiter counts the requests of each client
    address in the current window; a request whose count exceeds [max]
    is answered 429 with the configured message and goes no further. *)
Record RateLimit := mkRateLimit {
  limit_windowMs : Z;
  limit_max : nat
}.

Definition createRateLimit (windowMs : Z) (max : nat) : RateLimit :=
  mkRateLimit windowMs max.

(** The three limiters, mounted on [/api/], [/api/match] and
    [/api/report] in this order. *)
Definition apiLimit : RateLimit := createRateLimit (15 * 60 * 1000) 100.
Definition matchLimit : RateLimit := createRateLimit (5 * 60 * 1000) 10.
Definition reportLimit : RateLimit := createRateLimit (60 * 60 * 1000) 5.

Definition hits_of (ip : string) (hits : gmap string nat) : nat :=
  default 0 (hits !! ip).

(** One request at a limiter: whether it passes, and the counts after
    it. *)
Definition rateLimit (limit : RateLimit) (ip : string)
  (hits : gmap string nat) : bool * gmap string nat :=
  let totalHits := S (hits_of ip hits) in
  (bool_decide (totalHits ≤ limit_max limit)%nat, <[ip := totalHits]> hits).

(** The window of a client address ends: its count starts again. *)
Definition windowEnds (ip : string) (hits : gmap string nat)
  : gmap string nat :=
  delete ip hits.

Definition tooManyRequests : Response :=
  json_error 429 "Too many requests, please try again later.".

(** The store and the counts of the three limiters. *)
Record Api := mkApi {
  api_store : Store;
  apiHits : gmap string nat;
  matchHits : gmap string nat;
  reportHits : gmap string nat
}.

(** POST /api/report: the limiter of [/api/], the limiter of
    [/api/report], then the handler. *)
Definition apiReport (env : Env) (ip : string) (body : ReportBody) (a : Api)
  : Api * Response :=
  let '(pass1, hits1) := rateLimit apiLimit ip (apiHits a) in
  if negb pass1
  then (mkApi (api_store a) hits1 (matchHits a) (reportHits a),
        tooManyRequests)
  else
    let '(pass2, hits2) := rateLimit reportLimit ip (reportHits a) in
    if negb pass2
    then (mkApi (api_store a) hits1 (matchHits a) hits2, tooManyRequests)
    else
      let '(st, response) := postReport env ip body (api_store a) in
      (mkApi st hits1 (matchHits a) hits2, response).

(** POST /api/block: the limiter of [/api/], then the handler. *)
Definition apiBlock (ip : string) (sessionId blockedUserId : string) (a : Api)
  : Api * Response :=
  let '(pass1, hits1) := rateLimit apiLimit ip (apiHits a) in
  if negb pass1
  then (mkApi (api_store a) hits1 (matchHits a) (reportHits a),
        tooManyRequests)
  else
    let '(st, response) := postBlock sessionId blockedUserId (api_store a) in
    (mkApi st hits1 (matchHits a) (reportHits a), response).

(** [n] reports in a row from one address, with the last response. *)
Fixpoint reports_in_a_row (n : nat) (env : Env) (ip : string)
  (body : ReportBody) (a : Api) : Api * option Response :=
  match n with
  | O => (a, None)
  | S n' =>
      let '(a1, _) := reports_in_a_row n' env ip body a in
      let '(a2, response) := apiReport env ip body a1 in
      (a2, Some response)
  end.

(** ** The queue of the HTTP transport *)

(** [startMatching] of the hook [useHTTPMatching], the transport that
    keeps the wait queue in the browser's storage: the entries of the
    user's id are filtered out of the queue before the user is pushed. *)
Record QueueEntry := mkQueueEntry {
  entry_user : User;
  entry_timestamp : Z
}.

Definition startMatching (now : Z) (user : User) (queue : list QueueEntry)
  : list QueueEntry :=
  let filteredQueue :=
    filter (λ entry, user_id (entry_user entry) ≠ user_id user) queue in
  filteredQueue ++ [mkQueueEntry user now].

(** ** Views used by the statements *)

(** The wait queue of the backend in use, as a list. *)
Definition wait_queue (st : Store) : list User :=
  if useRedis st then matchingQueue (redisClient st)
  else queue (memoryStore st).

Definition set_wait_queue (q : list User) (st : Store) : Store :=
  if useRedis st then with_redis (set_matchingQueue q) st
  else with_memory (set_queue q) st.

(** The number of wait entries of a user id. *)
Definition entries_of (uid : string) (q : list User) : nat :=
  length (filter (λ u, user_id u = uid) q).

(** What [findMatch] holds back: an entry that is neither the candidate
    nor blocked, with its positive score. *)
Definition eligible (user : User) (st : Store) (m : User * nat) : Prop :=
  user_id m.1 ≠ user_id user
  ∧ isBlocked (user_id user) (user_id m.1) st = false
  ∧ m.2 = calculateMatchScore (user_tags user) (user_tags m.1)
  ∧ 0 < m.2.

(** ** Sample users, stores and connections *)

Module Scenario.

Definition alice : User := mkUser "alice" ["CS"; "Math"].
Definition bob : User := mkUser "bob" ["math"; "bio"].
Definition carol : User := mkUser "carol" ["cs"].
Definition dave : User := mkUser "dave" ["CS"].

Definition memory_store (q : list User) (blocked : gset string) : Store :=
  mkStore false (mkRedis ∅ [] []) (mkMemoryStore ∅ q blocked [] []).

Definition redis_store (q : list User) (blocked : gset string) : Store :=
  mkStore true (mkRedis (gset_to_gmap RTrue blocked) q [])
    (mkMemoryStore ∅ [] ∅ [] []).

(** A process with the given store and freshly opened connections. *)
Definition connected (st : Store) (clientIds : list string) : State :=
  foldl (λ s clientId, handleConnection clientId s) (mkState st [] [])
    clientIds.

(** Dave's own entry, Alice (who blocked Dave) and Carol are waiting. *)
Definition crowded : Store :=
  redis_store [dave; alice; carol] {["blocked:alice:dave"]}.

Definition env1 : Env := mkEnv "s1" "m1" 1000 1001.
Definition env2 : Env := mkEnv "s2" "m2" 2000 2001.

(** Two connections; Bob joins on the first and waits, then Alice joins
    on the second and is paired with him in session [s2]. *)
Definition lobby : State := connected (memory_store [] ∅) ["c1"; "c2"].
Definition bob_waiting : State := (handleJoinQueue env1 "c1" bob lobby).1.
Definition paired : State := (handleJoinQueue env2 "c2" alice bob_waiting).1.

(** A filter with a short word list. *)
Definition mask_filter : BadWordsFilter :=
  {| badwords := ["damn"; "hell"] |}.

End Scenario.

(** ** Further views *)

(** The test of the drain loop on one entry, and the pair it holds. *)
Definition eligibleb (user : User) (st : Store) (x : User) : bool :=
  negb (bool_decide (user_id x = user_id user)
        || isBlocked (user_id user) (user_id x) st)
  && (0 <? calculateMatchScore (user_tags user) (user_tags x))%nat.

Definition scored (user : User) (x : User) : User * nat :=
  (x, calculateMatchScore (user_tags user) (user_tags x)).

(** Every stored session has two users, with different ids. *)
Definition sessions_paired (st : Store) : Prop :=
  ∀ key session, getFromStore key st = Some session →
    ∃ u1 u2, users session = [u1; u2] ∧ user_id u1 ≠ user_id u2.

(** A string without a colon. *)
Fixpoint colon_free (s : string) : bool :=
  match s with
  | EmptyString => true
  | String c s' => negb (Ascii.eqb c ":") && colon_free s'
  end.

(** Further sample data. *)
Module Cases.

Definition erin : User := mkUser "erin" ["Physics"; "cs"].
Definition frank : User := mkUser "frank" ["physics"; "CS"; "Art"].

Definition gina : User := mkUser "gina" ["CS"; "Physics"].

Definition env3 : Env := mkEnv "s3" "m3" 3000 3001.

(** Two fresh connections on a store with an empty queue. *)
Definition two_connections (st : Store) (cx cy : string) : State :=
  mkState st [(cx, mkClient None None); (cy, mkClient None None)] [].

End Cases.

(** * Properties *)

(** ** Tags *)

Lemma elem_of_foldl_set_add x l acc :
  x ∈ foldl Js.set_add acc l ↔ x ∈ acc ∨ x ∈ l.
Proof.
  revert acc. induction l as [|y l IH]; intros acc; simpl.
  - rewrite elem_of_nil. tauto.
  - rewrite IH, elem_of_cons. unfold Js.set_add.
    destruct (decide (y ∈ acc)) as [Hy|Hy].
    + split; [tauto|]. intros [?|[->|?]]; auto.
    + rewrite elem_of_app, list_elem_of_singleton. tauto.
Qed.

Lemma elem_of_new_Set x l : x ∈ Js.new_Set l ↔ x ∈ l.
Proof.
  unfold Js.new_Set. rewrite elem_of_foldl_set_add, elem_of_nil. tauto.
Qed.

Lemma filter_ext_elem {A} (P Q : A → Prop)
  `{!∀ x, Decision (P x), !∀ x, Decision (Q x)} (l : list A) :
  (∀ x, x ∈ l → (P x ↔ Q x)) → filter P l = filter Q l.
Proof.
  induction l as [|x l IH]; intros HPQ; [done|].
  rewrite !filter_cons.
  assert (P x ↔ Q x) as Hx by (apply HPQ; left).
  rewrite IH by (intros y Hy; apply HPQ; by right).
  destruct (decide (P x)), (decide (Q x)); tauto.
Qed.

Lemma getSharedTags_spec tags1 tags2 :
  getSharedTags tags1 tags2 =
  filter (λ tag, Js.toLowerCase tag ∈ map Js.toLowerCase tags2) tags1.
Proof.
  unfold getSharedTags. apply filter_ext_elem. intros tag Htag.
  rewrite list_elem_of_filter, !elem_of_new_Set.
  split; [tauto|]. intros Hin. split; [done|].
  apply list_elem_of_fmap. eauto.
Qed.

(** ** The queue primitives *)

Lemma wait_queue_set q st : wait_queue (set_wait_queue q st) = q.
Proof. unfold wait_queue, set_wait_queue. by destruct st as [[] ? ?]. Qed.

Lemma set_wait_queue_twice q q' st :
  set_wait_queue q (set_wait_queue q' st) = set_wait_queue q st.
Proof. unfold set_wait_queue. by destruct st as [[] ? ?]. Qed.

Lemma set_wait_queue_id st : set_wait_queue (wait_queue st) st = st.
Proof.
  unfold set_wait_queue, wait_queue. by destruct st as [[] [] []].
Qed.

Lemma useRedis_set_wait_queue q st :
  useRedis (set_wait_queue q st) = useRedis st.
Proof. unfold set_wait_queue. by destruct st as [[] ? ?]. Qed.

Lemma isBlocked_set_wait_queue a b q st :
  isBlocked a b (set_wait_queue q st) = isBlocked a b st.
Proof. unfold isBlocked, set_wait_queue. by destruct st as [[] ? ?]. Qed.

Lemma getFromStore_set_wait_queue key q st :
  getFromStore key (set_wait_queue q st) = getFromStore key st.
Proof. unfold getFromStore, set_wait_queue. by destruct st as [[] ? ?]. Qed.

Lemma getQueueLength_wait_queue st :
  getQueueLength st = length (wait_queue st).
Proof. unfold getQueueLength, wait_queue. by destruct (useRedis st). Qed.

(** [addToQueue] puts the user at the head of the Redis list and at the
    end of the array. *)
Lemma addToQueue_set user st :
  addToQueue user st =
  set_wait_queue (if useRedis st then user :: wait_queue st
                  else wait_queue st ++ [user]) st.
Proof.
  unfold addToQueue, set_wait_queue, wait_queue. by destruct st as [[] ? ?].
Qed.

Lemma pop_last_snoc {A} (l : list A) x : pop_last (l ++ [x]) = (Some x, l).
Proof. unfold pop_last. by rewrite last_snoc, removelast_last. Qed.

Lemma pop_last_nil {A} : pop_last ([] : list A) = (None, []).
Proof. done. Qed.

(** [getFromQueue] takes the last element on both backends. *)
Lemma getFromQueue_snoc st q x :
  wait_queue st = q ++ [x] →
  getFromQueue st = (Some x, set_wait_queue q st).
Proof.
  unfold wait_queue, getFromQueue, set_wait_queue.
  destruct st as [[] ? ?]; simpl; intros ->; by rewrite pop_last_snoc.
Qed.

Lemma getFromQueue_nil st :
  wait_queue st = [] → getFromQueue st = (None, st).
Proof.
  unfold wait_queue, getFromQueue.
  destruct st as [[] [] []]; simpl; intros ->; done.
Qed.

Lemma list_snoc_cases {A} (l : list A) : l = [] ∨ ∃ q x, l = q ++ [x].
Proof.
  destruct (last l) as [x|] eqn:Hl.
  - right. apply last_Some in Hl as [q ->]. eauto.
  - left. by apply last_None.
Qed.

(** C9 (as stated): on every backend, pushing an entry and then popping
    returns the entry just pushed. It fails on the Redis backend, where
    LPUSH and RPOP act on opposite ends: with one user waiting, the pop
    after a push returns the user who waited. *)
Lemma push_pop_redis_returns_oldest :
  ¬ (∀ st user, (getFromQueue (addToQueue user st)).1 = Some user).
Proof.
  intros Hall.
  specialize (Hall (mkStore true (mkRedis ∅ [mkUser "old" ["CS"]] [])
                      (mkMemoryStore ∅ [] ∅ [] []))
                   (mkUser "new" ["CS"])).
  vm_compute in Hall. discriminate.
Qed.

(** C9 (amended): on the in-memory backend [push] and [pop] act on the
    same end of the array, so pushing and then popping returns the entry
    just pushed and restores the store (LIFO); on the Redis backend LPUSH
    and RPOP act on opposite ends, so the pop after a push returns the
    oldest entry and leaves the pushed one at the head (FIFO), and
    returns the pushed entry only when the queue was empty. *)
Theorem push_then_pop_per_backend user st :
  (useRedis st = false → getFromQueue (addToQueue user st) = (Some user, st))
  ∧ (useRedis st = true →
     (∀ q oldest, wait_queue st = q ++ [oldest] →
        getFromQueue (addToQueue user st)
        = (Some oldest, set_wait_queue (user :: q) st))
     ∧ (wait_queue st = [] →
        getFromQueue (addToQueue user st) = (Some user, st))).
Proof.
  split; [|intros H; split].
  - intros Hmem. rewrite addToQueue_set, Hmem.
    erewrite getFromQueue_snoc by apply wait_queue_set.
    by rewrite set_wait_queue_twice, set_wait_queue_id.
  - intros q oldest Hq. rewrite addToQueue_set, H, Hq.
    erewrite getFromQueue_snoc
      by (rewrite wait_queue_set; apply (app_comm_cons q [oldest] user)).
    by rewrite set_wait_queue_twice.
  - intros Hq. rewrite addToQueue_set, H, Hq.
    erewrite (getFromQueue_snoc _ []) by apply wait_queue_set.
    by rewrite set_wait_queue_twice, <- Hq, set_wait_queue_id.
Qed.

Lemma push_then_pop_per_backend_witness :
  getFromQueue (addToQueue Scenario.dave
                  (Scenario.memory_store [Scenario.alice] ∅))
  = (Some Scenario.dave, Scenario.memory_store [Scenario.alice] ∅)
  ∧ getFromQueue (addToQueue Scenario.dave
                    (Scenario.redis_store [Scenario.carol; Scenario.alice] ∅))
    = (Some Scenario.alice,
       set_wait_queue [Scenario.dave; Scenario.carol]
         (Scenario.redis_store [Scenario.carol; Scenario.alice] ∅))
  ∧ getFromQueue (addToQueue Scenario.dave (Scenario.redis_store [] ∅))
    = (Some Scenario.dave, Scenario.redis_store [] ∅).
Proof.
  split; [|split].
  - apply (proj1 (push_then_pop_per_backend Scenario.dave
                    (Scenario.memory_store [Scenario.alice] ∅))).
    reflexivity.
  - apply (proj1 (proj2 (push_then_pop_per_backend Scenario.dave
                    (Scenario.redis_store [Scenario.carol; Scenario.alice] ∅))
                    eq_refl) [Scenario.carol] Scenario.alice).
    reflexivity.
  - apply (proj2 (proj2 (push_then_pop_per_backend Scenario.dave
                    (Scenario.redis_store [] ∅)) eq_refl)).
    reflexivity.
Defined.

(** ** Reports *)

(** The handler of the report route: for every body, ip and store it
    answers with success and appends exactly one report, which carries
    the body's sessionId as given (the store is never consulted about
    it); a body without [messages] is stored with an empty array. *)
Lemma postReport_appends_one env ip body st :
  (postReport env ip body st).2 = json_success "Report submitted successfully"
  ∧ stored_reports (postReport env ip body st).1 =
    stored_reports st ++
    [ {| report_id := uuid1 env;
         report_sessionId := body_sessionId body;
         report_reason := body_reason body;
         report_messages :=
           if Js.truthy_val (body_messages body) then body_messages body
           else Js.JArr [];
         report_timestamp := now1 env;
         report_ip := ip |} ]
  ∧ length (stored_reports (postReport env ip body st).1) =
    S (length (stored_reports st))
  ∧ stored_reports
      (postReport env ip
         (mkReportBody (body_sessionId body) (body_reason body) Js.JUndefined)
         st).1 =
    stored_reports st ++
    [ mkReport (uuid1 env) (body_sessionId body) (body_reason body)
        (Js.JArr []) (now1 env) ip ]
  ∧ (∀ key, getFromStore key (postReport env ip body st).1 = getFromStore key st).
Proof.
  unfold postReport, stored_reports, getFromStore.
  destruct st as [[] r m]; simpl; rewrite ?reverse_cons, ?length_app; simpl;
    repeat split; lia.
Qed.

(** C10 (as stated): for every request body POST /api/report appends
    one report and answers success. It fails behind the rate limiters:
    of six reports in a row from one address on a fresh server the
    first five are stored and the sixth is answered 429 and stored
    nowhere. *)
Lemma sixth_report_is_refused :
  let a0 := mkApi (Scenario.memory_store [] ∅) ∅ ∅ ∅ in
  let body := mkReportBody (Js.JStr "s1") (Js.JStr "spam") Js.JUndefined in
  let r5 := reports_in_a_row 5 Scenario.env1 "10.0.0.1" body a0 in
  let r6 := reports_in_a_row 6 Scenario.env1 "10.0.0.1" body a0 in
  r5.2 = Some (json_success "Report submitted successfully")
  ∧ length (stored_reports (api_store r5.1)) = 5
  ∧ r6.2 = Some (json_error 429 "Too many requests, please try again later.")
  ∧ length (stored_reports (api_store r6.1)) = 5.
Proof. vm_compute. repeat split. Qed.

(** C10 (amended): a POST /api/report that the rate limiters let through (the
    address has made fewer than 100 requests to [/api/] and fewer than 5
    to [/api/report] in the current windows) appends exactly one report,
    whatever the body, and answers success: the report carries the
    body's sessionId as given, the session store is neither consulted
    nor changed, and a body without [messages] is stored with an empty
    array. A request over either limit is answered 429 and leaves the
    store as it is. *)
Theorem apiReport_appends_one_within_limits env ip body a :
  ((hits_of ip (apiHits a) < 100)%nat →
   (hits_of ip (reportHits a) < 5)%nat →
   (apiReport env ip body a).2
   = json_success "Report submitted successfully"
   ∧ stored_reports (api_store (apiReport env ip body a).1) =
     stored_reports (api_store a) ++
     [ {| report_id := uuid1 env;
          report_sessionId := body_sessionId body;
          report_reason := body_reason body;
          report_messages :=
            if Js.truthy_val (body_messages body) then body_messages body
            else Js.JArr [];
          report_timestamp := now1 env;
          report_ip := ip |} ]
   ∧ stored_reports
       (api_store
          (apiReport env ip
             (mkReportBody (body_sessionId body) (body_reason body)
                Js.JUndefined) a).1) =
     stored_reports (api_store a) ++
     [ mkReport (uuid1 env) (body_sessionId body) (body_reason body)
         (Js.JArr []) (now1 env) ip ]
   ∧ (∀ key, getFromStore key (api_store (apiReport env ip body a).1)
             = getFromStore key (api_store a)))
  ∧ ((100 ≤ hits_of ip (apiHits a))%nat
     ∨ (5 ≤ hits_of ip (reportHits a))%nat →
     (apiReport env ip body a).2 = tooManyRequests
     ∧ api_store (apiReport env ip body a).1 = api_store a).
Proof.
  assert (∀ body', apiReport env ip body' a
            = if bool_decide (S (hits_of ip (apiHits a)) ≤ 100)%nat
              then if bool_decide (S (hits_of ip (reportHits a)) ≤ 5)%nat
                   then (mkApi (postReport env ip body' (api_store a)).1
                           (<[ip := S (hits_of ip (apiHits a))]> (apiHits a))
                           (matchHits a)
                           (<[ip := S (hits_of ip (reportHits a))]>
                              (reportHits a)),
                         (postReport env ip body' (api_store a)).2)
                   else (mkApi (api_store a)
                           (<[ip := S (hits_of ip (apiHits a))]> (apiHits a))
                           (matchHits a)
                           (<[ip := S (hits_of ip (reportHits a))]>
                              (reportHits a)),
                         tooManyRequests)
              else (mkApi (api_store a)
                      (<[ip := S (hits_of ip (apiHits a))]> (apiHits a))
                      (matchHits a) (reportHits a),
                    tooManyRequests)) as Hroute.
  { intros body'. unfold apiReport, rateLimit, apiLimit, reportLimit. simpl.
    destruct (bool_decide (S (hits_of ip (apiHits a)) ≤ 100)%nat); [|done].
    simpl.
    by destruct (bool_decide (S (hits_of ip (reportHits a)) ≤ 5)%nat). }
  split.
  - intros H1 H2. rewrite !Hroute.
    rewrite !bool_decide_eq_true_2 by lia. simpl.
    destruct (postReport_appends_one env ip body (api_store a))
      as (Hresp & Hstored & _ & Hdefault & Hkeys).
    by repeat split.
  - intros Hover. rewrite Hroute.
    destruct (bool_decide (S (hits_of ip (apiHits a)) ≤ 100)%nat) eqn:H1;
      [|done].
    destruct (bool_decide (S (hits_of ip (reportHits a)) ≤ 5)%nat) eqn:H2;
      [|done].
    apply bool_decide_eq_true in H1. apply bool_decide_eq_true in H2. lia.
Qed.

Lemma apiReport_appends_one_within_limits_witness :
  (apiReport Scenario.env1 "10.0.0.1"
     (mkReportBody (Js.JStr "gone") (Js.JStr "spam") Js.JUndefined)
     (mkApi (store Scenario.paired) ∅ ∅ ∅)).2
  = json_success "Report submitted successfully"
  ∧ (apiReport Scenario.env1 "10.0.0.1"
       (mkReportBody (Js.JStr "gone") (Js.JStr "spam") Js.JUndefined)
       (mkApi (store Scenario.paired) ∅ ∅ {["10.0.0.1" := 5]})).2
    = tooManyRequests.
Proof.
  split.
  - apply (proj1 (apiReport_appends_one_within_limits Scenario.env1
                    "10.0.0.1"
                    (mkReportBody (Js.JStr "gone") (Js.JStr "spam")
                       Js.JUndefined)
                    (mkApi (store Scenario.paired) ∅ ∅ ∅)));
      vm_compute; lia.
  - apply (proj2 (apiReport_appends_one_within_limits Scenario.env1
                    "10.0.0.1"
                    (mkReportBody (Js.JStr "gone") (Js.JStr "spam")
                       Js.JUndefined)
                    (mkApi (store Scenario.paired) ∅ ∅
                       {["10.0.0.1" := 5]}))).
    right. vm_compute. lia.
Defined.

(** ** The matchmaker *)

Lemma insert_by_score_perm x l : insert_by_score x l ≡ₚ x :: l.
Proof.
  induction l as [|y l IH]; simpl; [done|].
  destruct (y.2 <=? x.2)%nat; [done|]. rewrite IH. apply Permutation_swap.
Qed.

Lemma sort_by_score_perm l : sort_by_score l ≡ₚ l.
Proof.
  induction l as [|x l IH]; simpl; [done|].
  by rewrite insert_by_score_perm, IH.
Qed.

(** The loop invariant: the entries drained are either back in the
    queue or held, the held ones are eligible, and nothing but the queue
    of the store changes. *)
Lemma drain_inv user n : ∀ matches st,
  ∃ held q',
    drain user n matches st = (matches ++ held, set_wait_queue q' st)
    ∧ wait_queue st ≡ₚ q' ++ held.*1
    ∧ Forall (eligible user st) held.
Proof.
  induction n as [|n IH]; intros matches st; simpl.
  { exists [], (wait_queue st).
    rewrite set_wait_queue_id, !app_nil_r. by repeat split. }
  destruct (list_snoc_cases (wait_queue st)) as [Hq|(q & x & Hq)].
  { rewrite (getFromQueue_nil _ Hq). exists [], (wait_queue st).
    rewrite set_wait_queue_id, !app_nil_r. by repeat split. }
  rewrite (getFromQueue_snoc _ _ _ Hq), isBlocked_set_wait_queue.
  assert (∀ ms, ∃ held q',
    drain user n ms (addToQueue x (set_wait_queue q st))
      = (ms ++ held, set_wait_queue q' st)
    ∧ wait_queue st ≡ₚ q' ++ held.*1
    ∧ Forall (eligible user st) held) as Hback.
  { intros ms. rewrite addToQueue_set, set_wait_queue_twice,
      useRedis_set_wait_queue, wait_queue_set.
    set (qb := if useRedis st then x :: q else q ++ [x]).
    destruct (IH ms (set_wait_queue qb st)) as (held & q' & Hd & Hp & Hel).
    exists held, q'.
    rewrite Hd, set_wait_queue_twice, wait_queue_set in *.
    split; [done|]. split.
    - rewrite Hq, <- Hp. unfold qb.
      destruct (useRedis st); [|done].
      by rewrite <- Permutation_cons_append.
    - eapply Forall_impl; [exact Hel|]. intros m (? & ? & ? & ?).
      by rewrite isBlocked_set_wait_queue in *. }
  destruct (bool_decide (user_id x = user_id user)) eqn:Hself; simpl;
    [apply Hback|].
  destruct (isBlocked (user_id user) (user_id x) st) eqn:Hblk; simpl;
    [apply Hback|].
  destruct (0 <? calculateMatchScore (user_tags user) (user_tags x))%nat
    eqn:Hscore; [|apply Hback].
  set (score := calculateMatchScore (user_tags user) (user_tags x)) in *.
  destruct (IH (matches ++ [(x, score)]) (set_wait_queue q st))
    as (held & q' & Hd & Hp & Hel).
  exists ((x, score) :: held), q'.
  rewrite Hd, set_wait_queue_twice, wait_queue_set in *.
  split; [by rewrite <- app_assoc|]. split.
  - rewrite Hq, Hp. simpl.
    rewrite <- Permutation_cons_append, <- Permutation_middle. done.
  - constructor.
    + repeat split; simpl; try done.
      * by apply bool_decide_eq_false in Hself.
      * by apply Nat.ltb_lt in Hscore.
    + eapply Forall_impl; [exact Hel|]. intros m (? & ? & ? & ?).
      by rewrite isBlocked_set_wait_queue in *.
Qed.

(** [findMatch] in terms of the entries held. *)
Lemma findMatch_held user st :
  ∃ held q',
    (findMatch user st).2 = set_wait_queue q' st
    ∧ wait_queue st ≡ₚ q' ++ held.*1
    ∧ Forall (eligible user st) held
    ∧ (findMatch user st).1 = fst <$> head (sort_by_score held).
Proof.
  unfold findMatch.
  destruct (drain_inv user (getQueueLength st) [] st)
    as (held & q' & Hd & Hp & Hel).
  rewrite Hd. simpl. exists held, q'.
  destruct (sort_by_score held); simpl; by repeat split.
Qed.

Lemma findMatch_result_eligible user st e :
  (findMatch user st).1 = Some e →
  ∃ score, eligible user st (e, score) ∧ e ∈ wait_queue st.
Proof.
  destruct (findMatch_held user st) as (held & q' & _ & Hp & Hel & Hr).
  rewrite Hr. intros Hhead.
  destruct (sort_by_score held) as [|[e' score] srt] eqn:Hs; [done|].
  simpl in Hhead. injection Hhead as ->.
  assert ((e, score) ∈ held) as Hin.
  { rewrite <- (sort_by_score_perm held), Hs. left. }
  exists score. split.
  - by apply (proj1 (Forall_forall _ _) Hel).
  - rewrite Hp, elem_of_app. right.
    apply list_elem_of_fmap. by exists (e, score).
Qed.

Lemma entries_of_held user st held :
  Forall (eligible user st) held → entries_of (user_id user) held.*1 = 0.
Proof.
  unfold entries_of. induction 1 as [|m held (Hne & _) _ IH]; [done|].
  simpl. rewrite filter_cons. by destruct (decide _).
Qed.

Lemma entries_of_perm uid q1 q2 :
  q1 ≡ₚ q2 → entries_of uid q1 = entries_of uid q2.
Proof. unfold entries_of. by intros ->. Qed.

(** [findMatch] keeps every wait entry of the candidate's own id. *)
Lemma findMatch_entries_of_self user st :
  entries_of (user_id user) (wait_queue (findMatch user st).2)
  = entries_of (user_id user) (wait_queue st).
Proof.
  destruct (findMatch_held user st) as (held & q' & -> & Hp & Hel & _).
  rewrite wait_queue_set, (entries_of_perm _ _ _ Hp).
  unfold entries_of in *. rewrite filter_app, length_app.
  fold (entries_of (user_id user) held.*1).
  rewrite (entries_of_held _ _ _ Hel). lia.
Qed.

(** C2: [findMatch] never returns an entry with the candidate's own id
    nor an entry blocked with the candidate in either direction; every
    such entry is in the queue after the call as often as before it, as
    the same record. *)
Theorem findMatch_never_self_or_blocked user st :
  (∀ e, (findMatch user st).1 = Some e →
     user_id e ≠ user_id user
     ∧ isBlocked (user_id user) (user_id e) st = false
     ∧ isBlocked (user_id e) (user_id user) st = false)
  ∧ (∀ x, user_id x = user_id user
          ∨ isBlocked (user_id user) (user_id x) st = true →
     length (filter (λ y, y = x) (wait_queue (findMatch user st).2))
     = length (filter (λ y, y = x) (wait_queue st))).
Proof.
  split.
  - intros e He.
    destruct (findMatch_result_eligible _ _ _ He) as (score & (Hne & Hb & _) & _).
    repeat split; try done.
    revert Hb. unfold isBlocked. destruct (useRedis st);
      intros Hb; by rewrite orb_comm.
  - intros x Hskip.
    destruct (findMatch_held user st) as (held & q' & -> & Hp & Hel & _).
    rewrite wait_queue_set, Hp, filter_app, length_app.
    assert (filter (λ y, y = x) held.*1 = []) as ->; [|simpl; lia].
    clear Hp. induction Hel as [|m held (Hne & Hb & _) _ IH]; [done|].
    simpl. rewrite filter_cons. destruct (decide (m.1 = x)) as [<-|]; [|done].
    destruct Hskip; congruence.
Qed.

Lemma findMatch_never_self_or_blocked_witness :
  (user_id Scenario.carol ≠ user_id Scenario.dave
   ∧ isBlocked (user_id Scenario.dave) (user_id Scenario.carol)
       Scenario.crowded = false
   ∧ isBlocked (user_id Scenario.carol) (user_id Scenario.dave)
       Scenario.crowded = false)
  ∧ length (filter (λ y, y = Scenario.alice)
              (wait_queue (findMatch Scenario.dave Scenario.crowded).2))
    = length (filter (λ y, y = Scenario.alice)
                (wait_queue Scenario.crowded)).
Proof.
  split.
  - apply (proj1 (findMatch_never_self_or_blocked Scenario.dave
                    Scenario.crowded) Scenario.carol).
    vm_compute. reflexivity.
  - apply (proj2 (findMatch_never_self_or_blocked Scenario.dave
                    Scenario.crowded) Scenario.alice).
    right. vm_compute. reflexivity.
Defined.

(** C1 (the code at a failing input): Alice and Carol wait and both share
    a tag with Dave. [findMatch] holds both, returns Carol and puts
    Alice nowhere: the queue of two entries is empty after the call, on
    either backend, where the claim asks for one entry, Alice. *)
Theorem findMatch_drops_held_candidates :
  (0 < calculateMatchScore (user_tags Scenario.dave) (user_tags Scenario.alice)
   ∧ 0 < calculateMatchScore (user_tags Scenario.dave)
           (user_tags Scenario.carol))
  ∧ findMatch Scenario.dave
      (Scenario.memory_store [Scenario.alice; Scenario.carol] ∅)
    = (Some Scenario.carol, Scenario.memory_store [] ∅)
  ∧ findMatch Scenario.dave
      (Scenario.redis_store [Scenario.alice; Scenario.carol] ∅)
    = (Some Scenario.carol, Scenario.redis_store [] ∅).
Proof. vm_compute. repeat split; lia. Qed.

(** ** Sessions *)

Lemma getFromStore_setInStore key value st :
  getFromStore key (setInStore key value st) = Some value.
Proof.
  unfold getFromStore, setInStore.
  destruct st as [[] ? ?]; simpl; by rewrite lookup_insert_eq.
Qed.

Lemma session_key_not_a_list sid :
  "session:" +:+ sid ≠ "matchingQueue" ∧ "session:" +:+ sid ≠ "reports".
Proof. split; intros Heq; discriminate Heq. Qed.

Lemma wait_queue_setInStore sid value st :
  wait_queue (setInStore ("session:" +:+ sid) value st) = wait_queue st.
Proof.
  unfold wait_queue, setInStore. destruct st as [[] ? ?]; [|done].
  cbn [useRedis with_redis redisClient matchingQueue].
  by rewrite decide_False by apply session_key_not_a_list.
Qed.

(** C3: [getSharedTags tags1 tags2] is the list of the elements of
    [tags1] whose lower-case form occurs among the lower-case forms of
    [tags2], in the order and casing of [tags1]; for [CS, Math] and
    [math, bio] it is [Math]; and the session that [handleJoinQueue]
    creates on a match has the two users, these shared tags and exactly
    one message, a system message. *)
Theorem getSharedTags_and_new_session :
  (∀ tags1 tags2,
     getSharedTags tags1 tags2 =
     filter (λ tag, Js.toLowerCase tag ∈ map Js.toLowerCase tags2) tags1)
  ∧ getSharedTags ["CS"; "Math"] ["math"; "bio"] = ["Math"]
  ∧ (∀ env clientId user s client match_ st1,
       clients_get clientId (clients s) = Some client →
       findMatch user (store s) = (Some match_, st1) →
       ∃ session m,
         getFromStore ("session:" +:+ uuid1 env)
           (store (handleJoinQueue env clientId user s).1) = Some session
         ∧ users session = [user; match_]
         ∧ sharedTags session
           = getSharedTags (user_tags user) (user_tags match_)
         ∧ messages session = [m]
         ∧ msg_type m = TySystem
         ∧ msg_userId m = "system").
Proof.
  split; [apply getSharedTags_spec|]. split; [by vm_compute|].
  intros env clientId user s client match_ st1 Hc Hm.
  unfold handleJoinQueue. rewrite Hc, Hm.
  destruct (find_client _ _) as [[matchId ?]|]; simpl;
    rewrite getFromStore_setInStore; eexists _, _; by repeat split.
Qed.

Lemma getSharedTags_and_new_session_witness :
  ∃ session m,
    getFromStore "session:s1"
      (store (handleJoinQueue Scenario.env1 "c2" Scenario.alice
                (Scenario.connected
                   (Scenario.memory_store [Scenario.bob] ∅) ["c1"; "c2"])).1)
    = Some session
    ∧ users session = [Scenario.alice; Scenario.bob]
    ∧ sharedTags session = getSharedTags ["CS"; "Math"] ["math"; "bio"]
    ∧ messages session = [m]
    ∧ msg_type m = TySystem
    ∧ msg_userId m = "system".
Proof.
  apply (proj2 (proj2 getSharedTags_and_new_session) Scenario.env1 "c2"
           Scenario.alice
           (Scenario.connected (Scenario.memory_store [Scenario.bob] ∅)
              ["c1"; "c2"])
           (mkClient None None) Scenario.bob
           (Scenario.memory_store [] ∅)).
  - vm_compute. reflexivity.
  - vm_compute. reflexivity.
Defined.

(** ** Joining *)

(** C5 (the code at a failing input): Alice joins on an empty queue and
    joins again; her first entry is drained, skipped as a self-match and
    put back, and she is pushed once more, so that the queue holds her
    id twice. The entry left behind is matched later: Alice waits with
    Math, Dave joins with CS, Alice joins again with CS and is paired
    with Dave while her Math entry stays in the queue, and Bob who joins
    next is paired with that entry, on either backend: two stored
    sessions hold Alice's id, and her connection points to the second,
    away from Dave. [startMatching] of the HTTP transport removes the
    entries of the id before it pushes and always leaves exactly one. *)
Theorem rejoin_leaves_two_entries :
  let s0 := Scenario.connected (Scenario.memory_store [] ∅) ["c1"] in
  let s1 := (handleJoinQueue Scenario.env1 "c1" Scenario.alice s0).1 in
  let s2 := (handleJoinQueue Scenario.env2 "c1" Scenario.alice s1).1 in
  let stale := mkUser "alice" ["Math"] in
  let rejoined := mkUser "alice" ["CS"] in
  let run st :=
    let t0 := Scenario.connected st ["c1"; "c2"; "c3"] in
    let t1 := (handleJoinQueue Scenario.env1 "c1" stale t0).1 in
    let t2 := (handleJoinQueue Scenario.env1 "c2" Scenario.dave t1).1 in
    let t3 := (handleJoinQueue Scenario.env2 "c1" rejoined t2).1 in
    let t4 := (handleJoinQueue Cases.env3 "c3" Scenario.bob t3).1 in
    (wait_queue (store t3),
     users <$> getFromStore "session:s2" (store t4),
     users <$> getFromStore "session:s3" (store t4),
     clients t4) in
  let outcome :=
    ([stale], Some [rejoined; Scenario.dave], Some [Scenario.bob; stale],
     [("c1", mkClient (Some "alice") (Some "s3"));
      ("c2", mkClient (Some "dave") (Some "s2"));
      ("c3", mkClient (Some "bob") (Some "s3"))]) in
  (wait_queue (store s1) = [Scenario.alice]
   ∧ wait_queue (store s2) = [Scenario.alice; Scenario.alice]
   ∧ ¬ NoDup (map user_id (wait_queue (store s2))))
  ∧ (run (Scenario.memory_store [] ∅) = outcome
     ∧ run (Scenario.redis_store [] ∅) = outcome)
  ∧ (∀ now user queue,
       length (filter (λ entry, user_id (entry_user entry) = user_id user)
                 (startMatching now user queue)) = 1).
Proof.
  split; [|split].
  - vm_compute. repeat split.
    intros Hnd. apply NoDup_cons in Hnd as [Hnotin _].
    apply Hnotin. left.
  - split; vm_compute; reflexivity.
  - intros now user queue. unfold startMatching.
    rewrite filter_app, length_app, filter_cons, decide_True by done.
    rewrite filter_nil. simpl.
    assert (filter (λ entry, user_id (entry_user entry) = user_id user)
              (filter (λ entry, user_id (entry_user entry) ≠ user_id user)
                 queue) = []) as ->; [|done].
    induction queue as [|entry queue IH]; [done|].
    rewrite (filter_cons _ entry queue).
    destruct (decide (user_id (entry_user entry) ≠ user_id user)) as [Hne|];
      [|exact IH].
    rewrite filter_cons, decide_False by done. exact IH.
Qed.

Lemma entries_of_addToQueue uid user st :
  entries_of uid (wait_queue (addToQueue user st))
  = entries_of uid (wait_queue st)
    + (if decide (user_id user = uid) then 1 else 0).
Proof.
  rewrite addToQueue_set, wait_queue_set. unfold entries_of.
  destruct (useRedis st).
  - rewrite filter_cons. destruct (decide _); simpl; lia.
  - rewrite filter_app, length_app, filter_cons.
    destruct (decide _); simpl; lia.
Qed.

(** [handleJoinQueue] has no step that removes a wait entry of the
    joining id: on a registered connection the number of wait entries
    with the user's id is unchanged when a match is found and grows by
    one when none is found, whatever it was before. *)
Lemma handleJoinQueue_keeps_own_entries env clientId user s :
  is_Some (clients_get clientId (clients s)) →
  entries_of (user_id user)
    (wait_queue (store (handleJoinQueue env clientId user s).1))
  = entries_of (user_id user) (wait_queue (store s))
    + match (findMatch user (store s)).1 with Some _ => 0 | None => 1 end.
Proof.
  intros [client Hc]. unfold handleJoinQueue. rewrite Hc.
  pose proof (findMatch_entries_of_self user (store s)) as Hself.
  destruct (findMatch user (store s)) as [[match_|] st1]; simpl in *.
  - destruct (find_client _ _) as [[matchId ?]|]; simpl;
      rewrite wait_queue_setInStore; lia.
  - rewrite entries_of_addToQueue, Hself. by rewrite decide_True.
Qed.

(** ** Video requests *)

(** C6 (as stated): a video_request on a session whose stored request is
    pending leaves the stored record, and its requesterId, unchanged. It
    fails: Alice's request is pending when Bob sends his, and the stored
    requesterId becomes Bob's; the offer is forwarded to Alice. *)
Lemma second_video_request_overwrites :
  let s3 := (handleVideoRequest "c2" (Some "alice") (Js.JStr "offer-a")
               Scenario.paired).1 in
  let r4 := handleVideoRequest "c1" (Some "bob") (Js.JStr "offer-b") s3 in
  (videoRequested <$> getFromStore "session:s2" (store s3))
  = Some (Some (mkVideoRequested (Some "alice") Pending))
  ∧ (videoRequested <$> getFromStore "session:s2" (store r4.1))
    = Some (Some (mkVideoRequested (Some "bob") Pending))
  ∧ r4.2 = [("c2", video_request (Some "bob") (Js.JStr "offer-b"))].
Proof. vm_compute. repeat split. Qed.

(** C6 (amended): on a connection with a stored session, a
    video_request always sets the session's record to the payload's
    requesterId with status pending, whatever record was stored before
    (a pending one included), and forwards the offer to the peer's
    connection if one is registered. *)
Theorem handleVideoRequest_always_sets clientId requester offer s
  client sid session :
  current_session clientId s = Some (client, sid, session) →
  getFromStore ("session:" +:+ sid)
    (store (handleVideoRequest clientId requester offer s).1)
  = Some (set_videoRequested (Some (mkVideoRequested requester Pending))
            session)
  ∧ (handleVideoRequest clientId requester offer s).2
    = notify_other client session (clients s)
        (video_request requester offer).
Proof.
  intros Hcur. unfold handleVideoRequest. rewrite Hcur. simpl.
  by rewrite getFromStore_setInStore.
Qed.

Lemma handleVideoRequest_always_sets_witness :
  ∃ session,
    getFromStore ("session:" +:+ "s2")
      (store (handleVideoRequest "c1" (Some "bob") (Js.JStr "offer-b")
                (handleVideoRequest "c2" (Some "alice") (Js.JStr "offer-a")
                   Scenario.paired).1).1)
    = Some (set_videoRequested (Some (mkVideoRequested (Some "bob") Pending))
              session)
    ∧ videoRequested session = Some (mkVideoRequested (Some "alice") Pending).
Proof.
  eexists. split.
  - eapply (handleVideoRequest_always_sets "c1" (Some "bob")
              (Js.JStr "offer-b")
              (handleVideoRequest "c2" (Some "alice") (Js.JStr "offer-a")
                 Scenario.paired).1).
    vm_compute. reflexivity.
  - vm_compute. reflexivity.
Defined.

(** ** The no-match timeout *)

(** The guard of the timer callback reads the connection registry only:
    the frames it sends do not depend on the wait queue. *)
Lemma queueTimeout_ignores_queue clientId q s :
  (queueTimeout clientId
     (mkState (set_wait_queue q (store s)) (clients s) (timers s))).2
  = (queueTimeout clientId s).2.
Proof.
  unfold queueTimeout. simpl.
  destruct (list_find _ _) as [[i ?]|]; [|done].
  destruct (clients_get _ _) as [c|]; [|done].
  by destruct (negb _).
Qed.

(** C7 (the code at a failing input): Bob joins an empty queue on
    connection c1, which arms the timer, and leaves the queue, which
    empties it and is acknowledged. When the timer fires the connection
    is registered and has no session, so the callback sends the no-match
    notice to c1, although Bob is queued no more. *)
Theorem queueTimeout_after_leave_still_notifies :
  let left := handleLeaveQueue "c1" Scenario.bob_waiting in
  wait_queue (store Scenario.bob_waiting) = [Scenario.bob]
  ∧ timers Scenario.bob_waiting = ["c1"]
  ∧ left.2 = [("c1", queue_left true)]
  ∧ wait_queue (store left.1) = []
  ∧ (queueTimeout "c1" left.1).2
    = [("c1", error timeout_message (Some "MATCHING_TIMEOUT"))].
Proof. vm_compute. repeat split. Qed.

(** ** Leaving the queue *)

Lemma rotate_remove_spec userId back front :
  rotate_remove (length back) userId (front ++ back)
  = filter (λ u, user_id u ≠ userId) back ++ front.
Proof.
  revert front. induction back as [|x back IH] using rev_ind; intros front.
  { by rewrite app_nil_r. }
  rewrite length_app, Nat.add_comm, app_assoc. simpl.
  rewrite pop_last_snoc, filter_app, filter_cons, filter_nil.
  destruct (decide (user_id x ≠ userId)).
  - rewrite (app_comm_cons front back x), (IH (x :: front)).
    by rewrite <- app_assoc.
  - rewrite IH. by rewrite app_nil_r.
Qed.

(** On Redis every entry of the id goes; the others keep their order. *)
Lemma removeFromQueue_redis userId st :
  useRedis st = true →
  removeFromQueue userId st
  = set_wait_queue (filter (λ u, user_id u ≠ userId) (wait_queue st)) st.
Proof.
  unfold removeFromQueue, set_wait_queue, wait_queue, with_redis.
  intros ->. simpl.
  pose proof (rotate_remove_spec userId (matchingQueue (redisClient st)) [])
    as Hrot.
  simpl in Hrot. by rewrite Hrot, app_nil_r.
Qed.

Lemma entries_of_0 uid q :
  entries_of uid q = 0 → Forall (λ u, user_id u ≠ uid) q.
Proof.
  unfold entries_of. induction q as [|x q IH]; [constructor|].
  rewrite filter_cons. destruct (decide (user_id x = uid)); [done|].
  intros Hq. constructor; auto.
Qed.

Lemma findIndex_None {A} (p : A → bool) l :
  Forall (λ x, p x = false) l → findIndex p l = None.
Proof.
  induction 1 as [|x l Hx _ IH]; simpl; [done|]. by rewrite Hx, IH.
Qed.

Lemma filter_all {A} (P : A → Prop) `{!∀ x, Decision (P x)} l :
  Forall P l → filter P l = l.
Proof.
  induction 1 as [|x l Hx _ IH]; [done|].
  by rewrite filter_cons, decide_True, IH.
Qed.

Lemma removeFromQueue_absent uid st :
  entries_of uid (wait_queue st) = 0 → removeFromQueue uid st = st.
Proof.
  intros Hq%entries_of_0. destruct (useRedis st) eqn:Hr.
  - rewrite removeFromQueue_redis, filter_all by done.
    apply set_wait_queue_id.
  - unfold removeFromQueue, wait_queue in *. rewrite Hr in *.
    rewrite findIndex_None; [done|].
    eapply Forall_impl; [exact Hq|]. intros u Hu.
    by apply bool_decide_eq_false.
Qed.

(** C8 (as stated): leave_queue on a connection that never joined still
    sends queue_left with success. It fails: the handler returns at its
    guard on the missing userId and sends nothing. *)
Lemma leave_queue_never_joined_sends_nothing :
  handleLeaveQueue "c1" Scenario.lobby = (Scenario.lobby, [])
  ∧ (handleLeaveQueue "c1" Scenario.lobby).2 ≠ [("c1", queue_left true)].
Proof. by vm_compute. Qed.

(** C8 (amended): leave_queue on a connection that has a user id (it
    joined at some time) while no wait entry has that id changes nothing
    and sends queue_left with success true; on a connection without a
    user id (it never joined) it changes nothing and sends nothing. *)
Theorem handleLeaveQueue_not_queued clientId s client :
  clients_get clientId (clients s) = Some client →
  (∀ uid, userId client = Some uid → uid ≠ "" →
     entries_of uid (wait_queue (store s)) = 0 →
     handleLeaveQueue clientId s = (s, [(clientId, queue_left true)]))
  ∧ (Js.truthy (userId client) = false →
     handleLeaveQueue clientId s = (s, [])).
Proof.
  intros Hc. unfold handleLeaveQueue. rewrite Hc. split.
  - intros uid -> Hne Hq. simpl.
    apply String.eqb_neq in Hne. rewrite Hne. simpl.
    rewrite removeFromQueue_absent by done. by destruct s.
  - destruct (userId client) as [uid|]; [|done]. by intros ->.
Qed.

Lemma handleLeaveQueue_not_queued_witness :
  handleLeaveQueue "c2" Scenario.paired
  = (Scenario.paired, [("c2", queue_left true)])
  ∧ handleLeaveQueue "c2" Scenario.lobby = (Scenario.lobby, []).
Proof.
  split.
  - apply (proj1 (handleLeaveQueue_not_queued "c2" Scenario.paired
                    (mkClient (Some "alice") (Some "s2"))
                    ltac:(vm_compute; reflexivity)) "alice").
    + reflexivity.
    + discriminate.
    + vm_compute. reflexivity.
  - apply (proj2 (handleLeaveQueue_not_queued "c2" Scenario.lobby
                    (mkClient None None) ltac:(vm_compute; reflexivity))).
    reflexivity.
Defined.

(** ** Moderation *)





Section ModerationProperties.
Context `{BadWordsFilter}.






End ModerationProperties.


(** * Further properties *)

(** ** The block list *)

(** X1: the block test is symmetric in its two user ids, on both
    backends. *)
Theorem isBlocked_symmetric userId1 userId2 st :
  isBlocked userId1 userId2 st = isBlocked userId2 userId1 st.
Proof. unfold isBlocked. destruct (useRedis st); apply orb_comm. Qed.

Lemma useRedis_blockUser a b st : useRedis (blockUser a b st) = useRedis st.
Proof. unfold blockUser. by destruct st as [[] ? ?]. Qed.

Lemma wait_queue_blockUser a b st :
  wait_queue (blockUser a b st) = wait_queue st.
Proof. unfold blockUser, wait_queue. by destruct st as [[] ? ?]. Qed.

Lemma blockUser_isBlocked a b st : isBlocked a b (blockUser a b st) = true.
Proof.
  unfold isBlocked, blockUser. destruct st as [[] ? ?]; simpl;
    apply orb_true_iff; left; apply bool_decide_eq_true.
  - by rewrite lookup_insert_eq.
  - apply elem_of_union; left. by apply elem_of_singleton.
Qed.

Lemma blockUser_keeps_blocks a b c d st :
  isBlocked c d st = true → isBlocked c d (blockUser a b st) = true.
Proof.
  unfold isBlocked, blockUser.
  destruct st as [[] ? ?]; simpl;
    rewrite !orb_true_iff, !bool_decide_eq_true.
  - rewrite !lookup_insert. intros [?|?]; [left|right]; by case_decide.
  - rewrite !elem_of_union. tauto.
Qed.

(** X2: right after [blockUser a b] the pair is blocked when asked in
    either direction and every pair blocked before is still blocked. On
    Redis the call arms no timer. In memory it arms a timer for the pair
    key whose delay of 30 days does not fit [setTimeout] and is 1
    millisecond; when that timer fires the key is deleted, so that the
    pair is no longer blocked unless the reverse key is in the set, and
    a store that did not hold the key is exactly as it was before the
    call. *)
Theorem blockUser_blocks_until_timer a b st :
  (isBlocked a b (blockUser a b st) = true
   ∧ isBlocked b a (blockUser a b st) = true
   ∧ (∀ c d, isBlocked c d st = true →
        isBlocked c d (blockUser a b st) = true))
  ∧ (useRedis st = true → memoryStore (blockUser a b st) = memoryStore st)
  ∧ (useRedis st = false →
     blockTimers (memoryStore (blockUser a b st))
     = blockTimers (memoryStore st) ++ [(a +:+ ":" +:+ b, 1%Z)]
     ∧ (blockTimers (memoryStore st) = [] →
        blockedPairs (memoryStore (blockTimerFires (blockUser a b st)))
        = blockedPairs (memoryStore st) ∖ {[a +:+ ":" +:+ b]}
        ∧ (b +:+ ":" +:+ a ∉ blockedPairs (memoryStore st) →
           isBlocked a b (blockTimerFires (blockUser a b st)) = false)
        ∧ (a +:+ ":" +:+ b ∉ blockedPairs (memoryStore st) →
           blockTimerFires (blockUser a b st) = st))).
Proof.
  split; [|split].
  - pose proof (blockUser_isBlocked a b st) as Hab.
    split; [done|]. split; [|intros c d; apply blockUser_keeps_blocks].
    revert Hab. unfold isBlocked. destruct (useRedis _); by rewrite orb_comm.
  - unfold blockUser. by intros ->.
  - intros Hr. unfold blockUser, blockTimerFires, isBlocked, with_memory.
    rewrite Hr. simpl.
    assert (setTimeout_delay (30 * 24 * 60 * 60 * 1000) = 1%Z) as ->
      by reflexivity.
    split; [done|]. intros Hts. rewrite Hts. simpl.
    assert (({[a +:+ ":" +:+ b]} ∪ blockedPairs (memoryStore st))
              ∖ {[a +:+ ":" +:+ b]}
            = blockedPairs (memoryStore st) ∖ {[a +:+ ":" +:+ b]}) as Hset.
    { apply set_eq. intros x.
      rewrite !elem_of_difference, elem_of_union. tauto. }
    rewrite Hset. split; [done|]. split.
    + intros Hrev. apply orb_false_iff.
      split; apply bool_decide_eq_false; rewrite elem_of_difference.
      * intros [_ Hne]. apply Hne. by apply elem_of_singleton.
      * tauto.
    + intros Hnew.
      assert (blockedPairs (memoryStore st) ∖ {[a +:+ ":" +:+ b]}
              = blockedPairs (memoryStore st)) as ->.
      { apply set_eq. intros x. rewrite elem_of_difference, elem_of_singleton.
        split; [tauto|]. intros Hx. split; [done|]. by intros ->. }
      destruct st as [r rc [ss q bp rp ts]]. simpl in *. by subst.
Qed.

Lemma blockUser_blocks_until_timer_witness :
  isBlocked "alice" "dave" (blockUser "carol" "bob" Scenario.crowded) = true
  ∧ memoryStore (blockUser "carol" "bob" Scenario.crowded)
    = memoryStore Scenario.crowded
  ∧ blockTimers
      (memoryStore (blockUser "carol" "bob" (Scenario.memory_store [] ∅)))
    = [("carol:bob", 1%Z)]
  ∧ isBlocked "carol" "bob"
      (blockTimerFires (blockUser "carol" "bob" (Scenario.memory_store [] ∅)))
    = false
  ∧ blockTimerFires (blockUser "carol" "bob" (Scenario.memory_store [] ∅))
    = Scenario.memory_store [] ∅.
Proof.
  destruct (blockUser_blocks_until_timer "carol" "bob" Scenario.crowded)
    as ((_ & _ & Hkeep) & Hredis & _).
  destruct (blockUser_blocks_until_timer "carol" "bob"
              (Scenario.memory_store [] ∅)) as (_ & _ & Hmem).
  destruct (Hmem eq_refl) as (Htimer & Hfire).
  destruct (Hfire eq_refl) as (_ & Hunblocked & Hsame).
  split; [apply Hkeep; vm_compute; reflexivity|].
  split; [apply Hredis; reflexivity|].
  split; [exact Htimer|].
  split; [apply Hunblocked|apply Hsame]; by intros ?%elem_of_empty.
Defined.

Lemma string_app_assoc (a b c : string) : (a +:+ b) +:+ c = a +:+ (b +:+ c).
Proof.
  induction a as [|x a IH]; [done|].
  change (String x ((a +:+ b) +:+ c) = String x (a +:+ (b +:+ c))).
  by rewrite IH.
Qed.

(** The key of a pair of colon-free ids determines the pair. *)
Lemma pair_key_inj a b c d :
  colon_free a = true → colon_free c = true →
  a +:+ ":" +:+ b = c +:+ ":" +:+ d → a = c ∧ b = d.
Proof.
  revert c. induction a as [|x a IH]; intros [|y c] Ha Hc Heq; simpl in *.
  - by injection Heq.
  - injection Heq as <- _. done.
  - injection Heq as -> _. done.
  - injection Heq as -> Heq.
    apply andb_true_iff in Ha as [_ Ha]. apply andb_true_iff in Hc as [_ Hc].
    destruct (IH c Ha Hc Heq) as [-> ->]. done.
Qed.

Lemma bool_decide_union_ne (x k : string) (S : gset string) :
  x ≠ k → bool_decide (x ∈ ({[k]} : gset string) ∪ S) = bool_decide (x ∈ S).
Proof.
  intros Hne. apply bool_decide_ext.
  rewrite elem_of_union, elem_of_singleton. tauto.
Qed.

Lemma bool_decide_insert_ne (x k : string) (v : RedisString)
  (m : gmap string RedisString) :
  x ≠ k →
  bool_decide (is_Some (<[k := v]> m !! x)) = bool_decide (is_Some (m !! x)).
Proof. intros Hne. by rewrite lookup_insert_ne. Qed.

(** X3: for user ids without a colon, [blockUser a b] changes the block
    test of no other pair: [isBlocked c d] keeps its value unless
    [{c, d}] is [{a, b}]. *)
Theorem blockUser_other_pairs a b c d st :
  colon_free a = true → colon_free b = true →
  colon_free c = true → colon_free d = true →
  (c, d) ≠ (a, b) → (c, d) ≠ (b, a) →
  isBlocked c d (blockUser a b st) = isBlocked c d st.
Proof.
  intros Ha Hb Hc Hd Hab Hba.
  assert (c +:+ ":" +:+ d ≠ a +:+ ":" +:+ b) as H1.
  { intros [-> ->]%pair_key_inj; done. }
  assert (d +:+ ":" +:+ c ≠ a +:+ ":" +:+ b) as H2.
  { intros [-> ->]%pair_key_inj; done. }
  unfold isBlocked, blockUser. destruct st as [[] ? ?]; simpl.
  - rewrite !bool_decide_insert_ne; [done| |];
      intros Heq; injection Heq as Heq; done.
  - by rewrite !bool_decide_union_ne.
Qed.

Lemma blockUser_other_pairs_witness :
  isBlocked "carol" "dave" (blockUser "bob" "dave" Scenario.crowded)
  = isBlocked "carol" "dave" Scenario.crowded.
Proof.
  apply (blockUser_other_pairs "bob" "dave" "carol" "dave" Scenario.crowded);
    try reflexivity; discriminate.
Defined.

Lemma pair_key_assoc (a b c : string) :
  (a +:+ ":" +:+ b) +:+ ":" +:+ c = a +:+ ":" +:+ (b +:+ ":" +:+ c).
Proof. by rewrite string_app_assoc. Qed.

(** X4: the key of a pair is the two ids joined by a colon, so ids that
    contain a colon collide: blocking [c] on behalf of the id [a:b]
    also blocks the pair of [a] and [b:c]. *)
Theorem blockUser_colon_collision a b c st :
  isBlocked a (b +:+ ":" +:+ c) (blockUser (a +:+ ":" +:+ b) c st) = true.
Proof.
  unfold isBlocked, blockUser.
  destruct st as [[] ? ?]; simpl; apply orb_true_iff; left;
    apply bool_decide_eq_true; rewrite (pair_key_assoc a b c).
  - by rewrite lookup_insert_eq.
  - apply elem_of_union; left. by apply elem_of_singleton.
Qed.

(** ** Tag overlap *)

Lemma NoDup_foldl_set_add l acc : NoDup acc → NoDup (foldl Js.set_add acc l).
Proof.
  revert acc. induction l as [|x l IH]; intros acc Hacc; simpl; [done|].
  apply IH. unfold Js.set_add. destruct (decide (x ∈ acc)); [done|].
  apply NoDup_app. repeat split; [done| |apply NoDup_singleton].
  intros y Hy ->%list_elem_of_singleton. done.
Qed.

Lemma NoDup_new_Set l : NoDup (Js.new_Set l).
Proof. apply NoDup_foldl_set_add, NoDup_nil_2. Qed.

(** The members of the intersection built by [calculateMatchScore]. *)
Lemma elem_of_intersection x tags1 tags2 :
  x ∈ Js.new_Set
        (filter (λ tag, tag ∈ Js.new_Set (map Js.toLowerCase tags2))
           (Js.new_Set (map Js.toLowerCase tags1)))
  ↔ x ∈ map Js.toLowerCase tags1 ∧ x ∈ map Js.toLowerCase tags2.
Proof.
  rewrite elem_of_new_Set, list_elem_of_filter, !elem_of_new_Set. tauto.
Qed.

(** X5: the match score does not depend on the order of its two tag
    lists. *)
Theorem calculateMatchScore_symmetric tags1 tags2 :
  calculateMatchScore tags1 tags2 = calculateMatchScore tags2 tags1.
Proof.
  unfold calculateMatchScore. apply Permutation_length.
  apply NoDup_Permutation; [apply NoDup_new_Set..|].
  intros x. rewrite !elem_of_intersection. tauto.
Qed.

(** X6: the score is positive exactly when [getSharedTags] is not
    empty, that is when some tag of the first list equals some tag of
    the second after lower-casing. *)
Theorem calculateMatchScore_positive tags1 tags2 :
  (0 < calculateMatchScore tags1 tags2 ↔ getSharedTags tags1 tags2 ≠ [])
  ∧ (0 < calculateMatchScore tags1 tags2
     ↔ ∃ t1 t2, t1 ∈ tags1 ∧ t2 ∈ tags2
                ∧ Js.toLowerCase t1 = Js.toLowerCase t2).
Proof.
  assert (0 < calculateMatchScore tags1 tags2
          ↔ ∃ t1 t2, t1 ∈ tags1 ∧ t2 ∈ tags2
                     ∧ Js.toLowerCase t1 = Js.toLowerCase t2) as Hscore.
  { unfold calculateMatchScore. split.
    - intros Hlen.
      destruct (Js.new_Set _) as [|x l] eqn:Hset; [simpl in Hlen; lia|].
      assert (x ∈ x :: l) as Hx by left. rewrite <- Hset in Hx.
      apply elem_of_intersection in Hx as [H1 H2].
      apply list_elem_of_fmap in H1 as (t1 & -> & H1).
      apply list_elem_of_fmap in H2 as (t2 & Heq & H2). eauto.
    - intros (t1 & t2 & H1 & H2 & Heq).
      assert (Js.toLowerCase t1 ∈ Js.new_Set
                (filter (λ tag, tag ∈ Js.new_Set (map Js.toLowerCase tags2))
                   (Js.new_Set (map Js.toLowerCase tags1)))) as Hin.
      { apply elem_of_intersection. split.
        - apply list_elem_of_fmap. eauto.
        - rewrite Heq. apply list_elem_of_fmap. eauto. }
      destruct (Js.new_Set _); [by apply elem_of_nil in Hin|simpl; lia]. }
  split; [|exact Hscore].
  rewrite Hscore, getSharedTags_spec. split.
  - intros (t1 & t2 & H1 & H2 & Heq) Hnil.
    assert (t1 ∈ filter
              (λ tag, Js.toLowerCase tag ∈ map Js.toLowerCase tags2) tags1)
      as Hin.
    { apply list_elem_of_filter. split; [|done].
      rewrite Heq. apply list_elem_of_fmap. eauto. }
    rewrite Hnil in Hin. by apply elem_of_nil in Hin.
  - intros Hne. destruct (filter _ tags1) as [|t1 l] eqn:Hf; [done|].
    assert (t1 ∈ t1 :: l) as Hin by left. rewrite <- Hf in Hin.
    apply list_elem_of_filter in Hin as [Hlow Hin].
    apply list_elem_of_fmap in Hlow as (t2 & Heq & H2). eauto.
Qed.

(** X7: the shared tags are a sublist of the first list, and the two
    orders of the arguments give the same tags up to case: a lower-case
    tag occurs among the shared tags of [tags1] and [tags2] exactly when
    it occurs among those of [tags2] and [tags1]. *)
Theorem getSharedTags_sublist_and_commutes tags1 tags2 :
  getSharedTags tags1 tags2 `sublist_of` tags1
  ∧ (∀ t, t ∈ map Js.toLowerCase (getSharedTags tags1 tags2)
          ↔ t ∈ map Js.toLowerCase (getSharedTags tags2 tags1)).
Proof.
  split.
  - rewrite getSharedTags_spec. apply sublist_filter.
  - assert (∀ a b t, t ∈ map Js.toLowerCase (getSharedTags a b)
              ↔ t ∈ map Js.toLowerCase a ∧ t ∈ map Js.toLowerCase b) as Hmem.
    { intros a b t. rewrite getSharedTags_spec. split.
      - intros (x & -> & Hx)%list_elem_of_fmap.
        apply list_elem_of_filter in Hx as [Hb Ha]. split; [|done].
        apply list_elem_of_fmap. eauto.
      - intros [(x & -> & Hx)%list_elem_of_fmap Hb].
        apply list_elem_of_fmap. exists x. split; [done|].
        by apply list_elem_of_filter. }
    intros t. rewrite !Hmem. tauto.
Qed.

(** ** What [findMatch] examines, returns and leaves behind *)

Lemma eligibleb_set_wait_queue user q st x :
  eligibleb user (set_wait_queue q st) x = eligibleb user st x.
Proof. unfold eligibleb. by rewrite isBlocked_set_wait_queue. Qed.

(** One round of the loop on a store whose queue ends with [x]. *)
Lemma drain_round user n matches q x st0 :
  drain user (S n) matches (set_wait_queue (q ++ [x]) st0)
  = if eligibleb user st0 x
    then drain user n (matches ++ [scored user x]) (set_wait_queue q st0)
    else drain user n matches
           (set_wait_queue (if useRedis st0 then x :: q else q ++ [x]) st0).
Proof.
  simpl.
  rewrite (getFromQueue_snoc _ q x) by apply wait_queue_set.
  rewrite !set_wait_queue_twice, isBlocked_set_wait_queue, addToQueue_set,
    set_wait_queue_twice, useRedis_set_wait_queue, wait_queue_set.
  unfold eligibleb, scored.
  destruct (bool_decide _ || isBlocked _ _ _); simpl; [done|].
  by destruct (0 <? _)%nat.
Qed.

(** On Redis the loop rotates the whole list once. *)
Lemma drain_redis user st0 back :
  useRedis st0 = true → ∀ front matches,
  drain user (length back) matches (set_wait_queue (front ++ back) st0)
  = (matches
     ++ map (scored user)
          (filter (λ x, eligibleb user st0 x = true) (reverse back)),
     set_wait_queue
       (filter (λ x, eligibleb user st0 x = false) back ++ front) st0).
Proof.
  intros Hr. induction back as [|x back IH] using rev_ind;
    intros front matches.
  { simpl. by rewrite !app_nil_r. }
  rewrite length_app, Nat.add_comm, app_assoc. cbn [length Nat.add].
  rewrite drain_round, Hr, reverse_snoc, filter_app, !filter_cons, filter_nil.
  destruct (eligibleb user st0 x) eqn:Hx.
  - rewrite IH, decide_True, decide_False by done.
    by rewrite app_nil_r, <- app_assoc.
  - rewrite (app_comm_cons front back x), IH, decide_False, decide_True by done.
    by rewrite <- app_assoc.
Qed.

(** In memory an entry that is put back is the next one popped. *)
Lemma drain_memory_stuck user st0 q x :
  useRedis st0 = false → eligibleb user st0 x = false → ∀ n matches,
  drain user n matches (set_wait_queue (q ++ [x]) st0)
  = (matches, set_wait_queue (q ++ [x]) st0).
Proof.
  intros Hr Hx. induction n as [|n IH]; intros matches; [done|].
  by rewrite drain_round, Hx, Hr, IH.
Qed.

Lemma drain_memory user st0 suffix :
  useRedis st0 = false → ∀ rest n matches,
  Forall (λ x, eligibleb user st0 x = true) suffix →
  (∀ x, last rest = Some x → eligibleb user st0 x = false) →
  (length suffix ≤ n)%nat →
  drain user n matches (set_wait_queue (rest ++ suffix) st0)
  = (matches ++ map (scored user) (reverse suffix), set_wait_queue rest st0).
Proof.
  intros Hr. induction suffix as [|x suffix IH] using rev_ind;
    intros rest n matches Hel Hrest Hn.
  { rewrite !app_nil_r. simpl.
    destruct (list_snoc_cases rest) as [->|(q & x & ->)].
    - destruct n as [|n]; [done|]. simpl.
      by rewrite getFromQueue_nil by apply wait_queue_set.
    - apply drain_memory_stuck; [done|]. apply Hrest, last_snoc. }
  rewrite length_app in Hn. simpl in Hn.
  destruct n as [|n]; [lia|].
  apply Forall_app in Hel as [Hel Hx]. rewrite Forall_singleton in Hx.
  rewrite app_assoc, drain_round, Hx, reverse_snoc.
  rewrite (IH rest n (matches ++ [scored user x]) Hel Hrest) by lia.
  by rewrite <- app_assoc.
Qed.

(** The head of the sorted list: a maximum, and the first of the
    maxima. *)
Lemma sort_by_score_head l m rest :
  sort_by_score l = m :: rest →
  ∃ pre post, l = pre ++ m :: post
    ∧ Forall (λ x, (x.2 < m.2)%nat) pre ∧ Forall (λ x, (x.2 ≤ m.2)%nat) post.
Proof.
  revert m rest. induction l as [|x l IH]; intros m rest; [done|]. simpl.
  destruct (sort_by_score l) as [|y r] eqn:Hs.
  - assert (l = []) as ->.
    { apply Permutation_nil. by rewrite <- (sort_by_score_perm l), Hs. }
    simpl. intros [= <- <-]. exists [], []. by repeat split.
  - destruct (IH y r eq_refl) as (pre & post & -> & Hpre & Hpost). simpl.
    destruct (y.2 <=? x.2)%nat eqn:Hle.
    + apply Nat.leb_le in Hle. intros [= <- <-].
      exists [], (pre ++ y :: post). repeat split; [constructor|].
      apply Forall_app. split; [|constructor].
      * eapply Forall_impl; [exact Hpre|]. simpl. lia.
      * done.
      * eapply Forall_impl; [exact Hpost|]. simpl. lia.
    + apply Nat.leb_gt in Hle. intros [= <- <-].
      exists (x :: pre), post. repeat split; [|done]. by constructor.
Qed.

Lemma map_filter_split {A B} (f : A → B) (P : A → Prop)
  `{!∀ x, Decision (P x)} l : ∀ pre m post,
  map f (filter P l) = pre ++ m :: post →
  ∃ l1 x l2, l = l1 ++ x :: l2 ∧ P x ∧ f x = m
    ∧ map f (filter P l1) = pre ∧ map f (filter P l2) = post.
Proof.
  induction l as [|a l IH]; intros pre m post Heq.
  { by destruct pre. }
  rewrite filter_cons in Heq. destruct (decide (P a)) as [Ha|Ha].
  - destruct pre as [|p pre]; simpl in Heq; injection Heq as Hfa Heq.
    + exists [], a, l. by repeat split.
    + destruct (IH _ _ _ Heq) as (l1 & x & l2 & -> & Hx & Hfx & H1 & H2).
      exists (a :: l1), x, l2. repeat split; try done.
      rewrite filter_cons, decide_True by done. simpl. by rewrite Hfa, H1.
  - destruct (IH _ _ _ Heq) as (l1 & x & l2 & -> & Hx & Hfx & H1 & H2).
    exists (a :: l1), x, l2. repeat split; try done.
    by rewrite filter_cons, decide_False.
Qed.

Lemma Forall_scored_filter user (P : User → Prop) `{!∀ x, Decision (P x)}
  (R : nat → Prop) l :
  Forall (λ m, R m.2) (map (scored user) (filter P l)) →
  ∀ x, x ∈ l → P x →
    R (calculateMatchScore (user_tags user) (user_tags x)).
Proof.
  intros Hall x Hx HP.
  apply (proj1 (Forall_forall _ _) Hall (scored user x)).
  apply list_elem_of_fmap. exists x. split; [done|].
  by apply list_elem_of_filter.
Qed.

(** The winner among the entries popped, in terms of the pop order
    [popped]: it is eligible, entries popped before it score strictly
    less and entries popped after it score no more. *)
Lemma winner_spec user (P : User → Prop) `{!∀ x, Decision (P x)} popped e :
  fst <$> head (sort_by_score (map (scored user) (filter P popped))) = Some e →
  ∃ before after, popped = before ++ e :: after ∧ P e
    ∧ (∀ x, x ∈ before → P x →
         (calculateMatchScore (user_tags user) (user_tags x)
          < calculateMatchScore (user_tags user) (user_tags e))%nat)
    ∧ (∀ x, x ∈ after → P x →
         (calculateMatchScore (user_tags user) (user_tags x)
          ≤ calculateMatchScore (user_tags user) (user_tags e))%nat).
Proof.
  destruct (sort_by_score _) as [|m rest] eqn:Hs; [done|].
  simpl. intros [= <-].
  apply sort_by_score_head in Hs as (pre & post & Heq & Hpre & Hpost).
  apply map_filter_split in Heq as (l1 & x & l2 & -> & Hx & <- & <- & <-).
  exists l1, l2. simpl in *. repeat split; try done.
  - by apply (Forall_scored_filter user P
                (λ n, (n < calculateMatchScore (user_tags user)
                             (user_tags x))%nat)).
  - by apply (Forall_scored_filter user P
                (λ n, (n ≤ calculateMatchScore (user_tags user)
                             (user_tags x))%nat)).
Qed.

Lemma findMatch_redis_eq user st :
  useRedis st = true →
  findMatch user st
  = (fst <$> head (sort_by_score
                     (map (scored user)
                        (filter (λ x, eligibleb user st x = true)
                           (reverse (wait_queue st))))),
     set_wait_queue
       (filter (λ x, eligibleb user st x = false) (wait_queue st)) st).
Proof.
  intros Hr. unfold findMatch. rewrite getQueueLength_wait_queue.
  pose proof (drain_redis user st (wait_queue st) Hr [] []) as Hd.
  rewrite app_nil_r in Hd. simpl in Hd. rewrite set_wait_queue_id in Hd.
  rewrite Hd. by destruct (sort_by_score _).
Qed.

Lemma sort_by_score_nil l : sort_by_score l = [] ↔ l = [].
Proof.
  split; [|by intros ->]. intros Hs.
  apply Permutation_nil. by rewrite <- (sort_by_score_perm l), Hs.
Qed.

Lemma filter_nil_Forall_false (f : User → bool) l :
  filter (λ x, f x = true) l = [] ↔ Forall (λ x, f x = false) l.
Proof.
  induction l as [|x l IH]; [by split; [constructor|]|].
  rewrite filter_cons, Forall_cons, <- IH.
  destruct (decide (f x = true)) as [Hx|Hx].
  - split; [done|]. intros [Hf _]. congruence.
  - apply not_true_is_false in Hx. tauto.
Qed.

(** X8: on the Redis backend [findMatch] examines every waiting entry
    once. Afterwards the queue holds exactly the entries that are the
    candidate, blocked or without a common tag, in their old order (so
    every entry with a positive score is gone, chosen or not), and the
    result is none exactly when no waiting entry is eligible. *)
Theorem findMatch_redis_leaves_ineligible user st :
  useRedis st = true →
  (findMatch user st).2
  = set_wait_queue
      (filter (λ x, eligibleb user st x = false) (wait_queue st)) st
  ∧ ((findMatch user st).1 = None
     ↔ Forall (λ x, eligibleb user st x = false) (wait_queue st)).
Proof.
  intros Hr. rewrite (findMatch_redis_eq user st Hr). simpl. split; [done|].
  rewrite <- filter_nil_Forall_false.
  destruct (sort_by_score _) as [|m l] eqn:Hs; simpl.
  - apply sort_by_score_nil, fmap_nil_inv in Hs.
    rewrite filter_reverse in Hs.
    apply (f_equal reverse) in Hs. rewrite reverse_involutive in Hs.
    by split.
  - split; [done|]. intros Hnil.
    rewrite filter_reverse, Hnil in Hs. done.
Qed.

Lemma findMatch_redis_leaves_ineligible_witness :
  (findMatch Scenario.dave Scenario.crowded).2
  = set_wait_queue
      (filter (λ x, eligibleb Scenario.dave Scenario.crowded x = false)
         (wait_queue Scenario.crowded)) Scenario.crowded
  ∧ ((findMatch Scenario.dave Scenario.crowded).1 = None
     ↔ Forall (λ x, eligibleb Scenario.dave Scenario.crowded x = false)
         (wait_queue Scenario.crowded)).
Proof.
  apply (findMatch_redis_leaves_ineligible Scenario.dave Scenario.crowded).
  reflexivity.
Defined.

(** X9: on the Redis backend the entry returned is eligible and has the
    highest score of all eligible waiting entries; among equal scores
    the one that has waited longest (nearest to the popping end) wins. *)
Theorem findMatch_redis_best user st e :
  useRedis st = true →
  (findMatch user st).1 = Some e →
  ∃ newer older,
    wait_queue st = newer ++ e :: older
    ∧ eligibleb user st e = true
    ∧ (∀ x, x ∈ older → eligibleb user st x = true →
         (calculateMatchScore (user_tags user) (user_tags x)
          < calculateMatchScore (user_tags user) (user_tags e))%nat)
    ∧ (∀ x, x ∈ newer → eligibleb user st x = true →
         (calculateMatchScore (user_tags user) (user_tags x)
          ≤ calculateMatchScore (user_tags user) (user_tags e))%nat).
Proof.
  intros Hr. rewrite (findMatch_redis_eq user st Hr). simpl. intros Hw.
  apply winner_spec in Hw as (before & after & Hq & He & Hlt & Hle).
  exists (reverse after), (reverse before). repeat split; try done.
  - apply (f_equal reverse) in Hq.
    rewrite reverse_involutive, reverse_app, reverse_cons, <- app_assoc in Hq.
    done.
  - intros x Hx. apply Hlt. by apply elem_of_reverse.
  - intros x Hx. apply Hle. by apply elem_of_reverse.
Qed.

Lemma findMatch_redis_best_witness :
  ∃ newer older,
    [Cases.frank; Scenario.alice; Cases.erin] = newer ++ Cases.erin :: older
    ∧ eligibleb Cases.gina
        (Scenario.redis_store [Cases.frank; Scenario.alice; Cases.erin] ∅)
        Cases.erin = true
    ∧ (∀ x, x ∈ older →
         eligibleb Cases.gina
           (Scenario.redis_store [Cases.frank; Scenario.alice; Cases.erin] ∅)
           x = true →
         (calculateMatchScore (user_tags Cases.gina) (user_tags x)
          < calculateMatchScore (user_tags Cases.gina)
              (user_tags Cases.erin))%nat)
    ∧ (∀ x, x ∈ newer →
         eligibleb Cases.gina
           (Scenario.redis_store [Cases.frank; Scenario.alice; Cases.erin] ∅)
           x = true →
         (calculateMatchScore (user_tags Cases.gina) (user_tags x)
          ≤ calculateMatchScore (user_tags Cases.gina)
              (user_tags Cases.erin))%nat).
Proof.
  apply (findMatch_redis_best Cases.gina
           (Scenario.redis_store [Cases.frank; Scenario.alice; Cases.erin] ∅)
           Cases.erin).
  - reflexivity.
  - vm_compute. reflexivity.
Defined.

(** X10: on the in-memory backend [findMatch] examines only the
    eligible entries at the popping end of the array, down to the first
    entry that is not eligible: that entry and everything below it stay
    as they are, every entry above it is taken out, and the result is
    the highest score among those taken out, the most recently pushed
    one among equal scores. *)
Theorem findMatch_memory_examines_top user st rest suffix :
  useRedis st = false →
  wait_queue st = rest ++ suffix →
  Forall (λ x, eligibleb user st x = true) suffix →
  (∀ x, last rest = Some x → eligibleb user st x = false) →
  (findMatch user st).2 = set_wait_queue rest st
  ∧ ((findMatch user st).1 = None ↔ suffix = [])
  ∧ (∀ e, (findMatch user st).1 = Some e →
       ∃ older newer,
         suffix = older ++ e :: newer
         ∧ Forall (λ x, (calculateMatchScore (user_tags user) (user_tags x)
                         < calculateMatchScore (user_tags user)
                             (user_tags e))%nat) newer
         ∧ Forall (λ x, (calculateMatchScore (user_tags user) (user_tags x)
                         ≤ calculateMatchScore (user_tags user)
                             (user_tags e))%nat) older).
Proof.
  intros Hr Hq Hel Hrest.
  assert (findMatch user st
          = (fst <$> head (sort_by_score
                             (map (scored user)
                                (filter (λ x, eligibleb user st x = true)
                                   (reverse suffix)))),
             set_wait_queue rest st)) as ->.
  { unfold findMatch. rewrite getQueueLength_wait_queue.
    rewrite <- (set_wait_queue_id st) at 2. rewrite Hq.
    rewrite (drain_memory user st suffix Hr rest _ [] Hel Hrest)
      by (rewrite length_app; lia).
    rewrite filter_all by by apply Forall_reverse.
    simpl. by destruct (sort_by_score _). }
  simpl. split; [done|]. split.
  - rewrite filter_all by by apply Forall_reverse.
    destruct (sort_by_score _) as [|m l] eqn:Hs; simpl.
    + apply sort_by_score_nil, fmap_nil_inv in Hs.
      apply (f_equal reverse) in Hs. rewrite reverse_involutive in Hs.
      by split.
    + split; [done|]. intros ->. done.
  - intros e Hw.
    apply winner_spec in Hw as (before & after & Hs & He & Hlt & Hle).
    apply (f_equal reverse) in Hs.
    rewrite reverse_involutive, reverse_app, reverse_cons, <- app_assoc in Hs.
    exists (reverse after), (reverse before). split; [done|].
    assert (Forall (λ x, eligibleb user st x = true) (reverse before)
            ∧ Forall (λ x, eligibleb user st x = true) (reverse after))
      as [Hb Ha].
    { rewrite Hs in Hel. apply Forall_app in Hel as [Ha Hb].
      apply Forall_cons in Hb as [_ Hb]. done. }
    split; apply Forall_forall; intros x Hx.
    + apply Hlt; [exact (proj1 (elem_of_reverse x before) Hx)|].
      by apply (proj1 (Forall_forall _ _) Hb).
    + apply Hle; [exact (proj1 (elem_of_reverse x after) Hx)|].
      by apply (proj1 (Forall_forall _ _) Ha).
Qed.

Lemma findMatch_memory_examines_top_witness :
  (findMatch Cases.gina
     (Scenario.memory_store
        [Scenario.alice; Scenario.bob; Cases.frank; Cases.erin] ∅)).2
  = set_wait_queue [Scenario.alice; Scenario.bob]
      (Scenario.memory_store
         [Scenario.alice; Scenario.bob; Cases.frank; Cases.erin] ∅).
Proof.
  apply (findMatch_memory_examines_top Cases.gina
           (Scenario.memory_store
              [Scenario.alice; Scenario.bob; Cases.frank; Cases.erin] ∅)
           [Scenario.alice; Scenario.bob] [Cases.frank; Cases.erin]).
  - reflexivity.
  - reflexivity.
  - repeat constructor.
  - intros x [= <-]. vm_compute. reflexivity.
Defined.

(** X11: on the in-memory backend, when the most recently pushed entry
    is the candidate's own, blocked or without a common tag,
    [findMatch] returns none and leaves the store as it is, whatever
    waits below that entry. *)
Theorem findMatch_memory_top_blocks user st q x :
  useRedis st = false →
  wait_queue st = q ++ [x] →
  eligibleb user st x = false →
  findMatch user st = (None, st).
Proof.
  intros Hr Hq Hx. unfold findMatch.
  rewrite <- (set_wait_queue_id st) at 2. rewrite Hq.
  rewrite (drain_memory_stuck user st q x Hr Hx). simpl.
  by rewrite <- Hq, set_wait_queue_id.
Qed.

Lemma findMatch_memory_top_blocks_witness :
  findMatch Cases.gina
    (Scenario.memory_store [Scenario.alice; Cases.erin; Scenario.bob] ∅)
  = (None,
     Scenario.memory_store [Scenario.alice; Cases.erin; Scenario.bob] ∅).
Proof.
  apply (findMatch_memory_top_blocks Cases.gina
           (Scenario.memory_store [Scenario.alice; Cases.erin; Scenario.bob] ∅)
           [Scenario.alice; Cases.erin] Scenario.bob); reflexivity.
Defined.

(** ** Removing a user from the queue *)

(** X12: on the Redis backend [removeFromQueue] removes every wait
    entry of the user id and keeps the other entries in their order;
    nothing but the queue changes. *)
Theorem removeFromQueue_redis_removes_all userId st :
  useRedis st = true →
  removeFromQueue userId st
  = set_wait_queue (filter (λ u, user_id u ≠ userId) (wait_queue st)) st
  ∧ entries_of userId (wait_queue (removeFromQueue userId st)) = 0.
Proof.
  intros Hr. rewrite removeFromQueue_redis by done. split; [done|].
  rewrite wait_queue_set. unfold entries_of.
  apply length_zero_iff_nil.
  induction (wait_queue st) as [|u q IH]; [done|].
  rewrite filter_cons. destruct (decide (user_id u ≠ userId)) as [Hne|]; [|done].
  by rewrite filter_cons, decide_False.
Qed.

Lemma removeFromQueue_redis_removes_all_witness :
  entries_of "alice"
    (wait_queue
       (removeFromQueue "alice"
          (Scenario.redis_store
             [Scenario.alice; Scenario.bob; Scenario.alice] ∅))) = 0.
Proof.
  apply (removeFromQueue_redis_removes_all "alice"
           (Scenario.redis_store
              [Scenario.alice; Scenario.bob; Scenario.alice] ∅)).
  reflexivity.
Defined.

Lemma findIndex_first {A} (p : A → bool) pre x post :
  Forall (λ y, p y = false) pre → p x = true →
  findIndex p (pre ++ x :: post) = Some (length pre).
Proof.
  intros Hpre Hx. induction Hpre as [|y pre Hy _ IH]; simpl.
  - by rewrite Hx.
  - by rewrite Hy, IH.
Qed.

(** X13: on the in-memory backend [removeFromQueue] removes only the
    first wait entry of the user id (the one nearest to index 0); later
    entries of the same id stay in the queue. *)
Theorem removeFromQueue_memory_removes_first userId st pre u post :
  useRedis st = false →
  wait_queue st = pre ++ u :: post →
  user_id u = userId →
  Forall (λ v, user_id v ≠ userId) pre →
  removeFromQueue userId st = set_wait_queue (pre ++ post) st
  ∧ entries_of userId (wait_queue (removeFromQueue userId st))
    = entries_of userId post.
Proof.
  intros Hr Hq Hu Hpre.
  assert (removeFromQueue userId st = set_wait_queue (pre ++ post) st) as ->.
  { unfold removeFromQueue, wait_queue, set_wait_queue in *.
    rewrite Hr in *. rewrite Hq.
    rewrite (findIndex_first _ pre u post).
    - unfold with_memory. simpl. by rewrite Hq, delete_middle.
    - eapply Forall_impl; [exact Hpre|]. intros v Hv.
      by apply bool_decide_eq_false.
    - by apply bool_decide_eq_true. }
  split; [done|]. rewrite wait_queue_set. unfold entries_of.
  rewrite filter_app, length_app.
  assert (filter (λ v, user_id v = userId) pre = []) as ->; [|done].
  clear Hq. induction Hpre as [|v pre Hv _ IH]; [done|].
  by rewrite filter_cons, decide_False.
Qed.

Lemma removeFromQueue_memory_removes_first_witness :
  removeFromQueue "alice"
    (Scenario.memory_store [Scenario.bob; Scenario.alice; Scenario.alice] ∅)
  = set_wait_queue ([Scenario.bob] ++ [Scenario.alice])
      (Scenario.memory_store [Scenario.bob; Scenario.alice; Scenario.alice] ∅)
  ∧ entries_of "alice"
      (wait_queue
         (removeFromQueue "alice"
            (Scenario.memory_store
               [Scenario.bob; Scenario.alice; Scenario.alice] ∅)))
    = entries_of "alice" [Scenario.alice].
Proof.
  apply (removeFromQueue_memory_removes_first "alice"
           (Scenario.memory_store
              [Scenario.bob; Scenario.alice; Scenario.alice] ∅)
           [Scenario.bob] Scenario.alice [Scenario.alice]).
  - reflexivity.
  - reflexivity.
  - reflexivity.
  - repeat constructor. discriminate.
Defined.

(** ** The session store *)

Lemma getFromStore_setInStore_ne key key' value st :
  key ≠ key' →
  getFromStore key' (setInStore key value st) = getFromStore key' st.
Proof.
  intros Hne. unfold getFromStore, setInStore.
  destruct st as [[] ? ?]; simpl; by rewrite lookup_insert_ne.
Qed.

(** A session key is no block key. *)
Lemma session_key_not_blocked sid rest :
  "blocked:" +:+ rest ≠ "session:" +:+ sid.
Proof. intros Heq. discriminate Heq. Qed.

Lemma isBlocked_setInStore a b sid value st :
  isBlocked a b (setInStore ("session:" +:+ sid) value st) = isBlocked a b st.
Proof.
  unfold isBlocked, setInStore. destruct st as [[] ? ?]; [|done].
  cbn [useRedis with_redis redisClient stringKeys].
  by rewrite !bool_decide_insert_ne by apply session_key_not_blocked.
Qed.



(** ** The connection registry *)

Lemma clients_update_keys clientId f cl :
  map fst (clients_update clientId f cl) = map fst cl.
Proof.
  induction cl as [|[k c] cl IH]; simpl; [done|].
  destruct (decide (k = clientId)); simpl; by rewrite ?IH.
Qed.

Lemma clients_get_update clientId k f cl :
  clients_get k (clients_update clientId f cl)
  = if decide (k = clientId) then f <$> clients_get k cl
    else clients_get k cl.
Proof.
  induction cl as [|[k' c] cl IH]; simpl; [by destruct (decide _)|].
  destruct (decide (k' = clientId)) as [->|Hne]; simpl.
  - destruct (decide (clientId = k)) as [<-|]; [by rewrite decide_True|].
    by rewrite decide_False.
  - destruct (decide (k' = k)) as [->|]; [by rewrite decide_False|].
    exact IH.
Qed.

Lemma clients_get_delete clientId k cl :
  clients_get k (clients_delete clientId cl)
  = if decide (k = clientId) then None else clients_get k cl.
Proof.
  unfold clients_delete. induction cl as [|[k' c] cl IH]; simpl.
  { by destruct (decide _). }
  rewrite filter_cons. simpl.
  destruct (decide (k' ≠ clientId)) as [Hne|Heq]; simpl.
  - destruct (decide (k' = k)) as [->|]; [by rewrite decide_False|]. exact IH.
  - apply dec_stable in Heq as ->. rewrite IH.
    destruct (decide (k = clientId)) as [->|]; [done|].
    by rewrite decide_False.
Qed.

(** The client found by its user id is registered under the key
    returned. *)
Lemma find_client_registered uid cl otherId c :
  find_client uid cl = Some (otherId, c) →
  is_Some (clients_get otherId cl).
Proof.
  unfold find_client. intros Hfind.
  destruct (list_find _ cl) as [[i kc]|] eqn:Hlf; [|done].
  simpl in Hfind. injection Hfind as ->.
  apply list_find_Some in Hlf as (Hi & _ & _).
  apply list_elem_of_lookup_2 in Hi. clear -Hi.
  induction cl as [|[k' c'] cl IH]; [by apply elem_of_nil in Hi|].
  simpl. destruct (decide (k' = otherId)); [by eexists|].
  apply IH. apply elem_of_cons in Hi as [[= <- <-]|Hi]; done.
Qed.

Lemma handleJoinQueue_keys env clientId user s :
  map fst (clients (handleJoinQueue env clientId user s).1)
  = map fst (clients s).
Proof.
  unfold handleJoinQueue.
  destruct (clients_get _ _); [|done].
  destruct (findMatch _ _) as [[match_|] st1]; simpl.
  - destruct (find_client _ _) as [[matchId ?]|]; simpl;
      by rewrite !clients_update_keys.
  - by rewrite clients_update_keys.
Qed.

(** X15: no WebSocket message adds a connection to the registry or
    removes one: whatever the message, the client ids registered and
    their order are the same after the handler. *)
Theorem handleWebSocketMessage_keeps_registry_keys
  `{BadWordsFilter} env clientId message s :
  map fst (clients (handleWebSocketMessage env clientId message s).1)
  = map fst (clients s).
Proof.
  unfold handleWebSocketMessage.
  destruct (clients_get clientId (clients s)) as [client|]; [|done].
  destruct message; try done.
  - apply handleJoinQueue_keys.
  - unfold handleLeaveQueue. destruct (clients_get _ _) as [c|]; [|done].
    destruct (userId c); [|done]. by destruct (Js.truthy _).
  - unfold handleChatMessage.
    destruct (current_session _ _) as [[[? ?] ?]|]; [|done].
    by destruct (moderateContent _).
  - unfold handleVideoRequest.
    by destruct (current_session _ _) as [[[? ?] ?]|].
  - unfold handleVideoResponse.
    by destruct (current_session _ _) as [[[? ?] ?]|].
  - unfold handleSessionEnd.
    destruct (current_session _ _) as [[[? ?] ?]|]; [|done].
    destruct (find_other _ _); simpl; [|by rewrite clients_update_keys].
    destruct (find_client _ _) as [[? ?]|]; simpl;
      by rewrite !clients_update_keys.
Qed.

(** ** What the handlers leave alone *)

Lemma removeFromQueue_set userId st :
  ∃ q, removeFromQueue userId st = set_wait_queue q st.
Proof.
  destruct (useRedis st) eqn:Hr.
  - eexists. by apply removeFromQueue_redis.
  - unfold removeFromQueue. rewrite Hr.
    destruct (findIndex _ _) as [index|].
    + exists (delete index (queue (memoryStore st))).
      unfold set_wait_queue. by rewrite Hr.
    + exists (wait_queue st). by rewrite set_wait_queue_id.
Qed.

Lemma findMatch_set user st :
  ∃ q, (findMatch user st).2 = set_wait_queue q st.
Proof. destruct (findMatch_held user st) as (_ & q & Hq & _). eauto. Qed.

Lemma current_session_stored clientId s client sid session :
  current_session clientId s = Some (client, sid, session) →
  clients_get clientId (clients s) = Some client
  ∧ sessionId client = Some sid
  ∧ getFromStore ("session:" +:+ sid) (store s) = Some session.
Proof.
  unfold current_session.
  destruct (clients_get _ _) as [c|]; [|done].
  destruct (sessionId c) as [sid'|] eqn:Hsid; [|done].
  destruct (Js.truthy _); [|done].
  destruct (getFromStore _ _) as [x|] eqn:Hget; [|done].
  by intros [= -> -> ->].
Qed.

(** X16: no WebSocket message changes the block list, and only
    join_queue and leave_queue change the wait queue: chat, video and
    session-end messages leave every wait entry where it is. *)
Theorem handleWebSocketMessage_frame `{BadWordsFilter} env clientId message s :
  (∀ a b, isBlocked a b (store (handleWebSocketMessage env clientId message s).1)
          = isBlocked a b (store s))
  ∧ match message with
    | join_queue _ | leave_queue => True
    | _ => wait_queue (store (handleWebSocketMessage env clientId message s).1)
           = wait_queue (store s)
    end.
Proof.
  unfold handleWebSocketMessage.
  destruct (clients_get clientId (clients s)) as [client|] eqn:Hc;
    [|by destruct message].
  destruct message; simpl.
  - split; [|done]. intros a b. unfold handleJoinQueue. rewrite Hc.
    destruct (findMatch_set user (store s)) as [q Hq].
    destruct (findMatch user (store s)) as [[match_|] st1]; simpl in *; subst.
    + destruct (find_client _ _) as [[? ?]|]; simpl;
        by rewrite isBlocked_setInStore, isBlocked_set_wait_queue.
    + by rewrite addToQueue_set, !isBlocked_set_wait_queue.
  - split; [|done]. intros a b. unfold handleLeaveQueue. rewrite Hc.
    destruct (userId client) as [uid|]; [|done].
    destruct (Js.truthy _); [|done]. simpl.
    destruct (removeFromQueue_set uid (store s)) as [q ->].
    apply isBlocked_set_wait_queue.
  - unfold handleChatMessage.
    destruct (current_session _ _) as [[[? ?] ?]|]; [|done].
    destruct (moderateContent _); [|done]. simpl.
    split; [intros a b; apply isBlocked_setInStore|].
    apply wait_queue_setInStore.
  - unfold handleVideoRequest.
    destruct (current_session _ _) as [[[? ?] ?]|]; [|done]. simpl.
    split; [intros a b; apply isBlocked_setInStore|].
    apply wait_queue_setInStore.
  - unfold handleVideoResponse.
    destruct (current_session _ _) as [[[? ?] ?]|]; [|done]. simpl.
    split; [intros a b; apply isBlocked_setInStore|].
    apply wait_queue_setInStore.
  - unfold handleSessionEnd.
    destruct (current_session _ _) as [[[? ?] ?]|]; [|done].
    destruct (find_other _ _); [|done].
    by destruct (find_client _ _) as [[? ?]|].
  - done.
Qed.

Lemma sessions_paired_set_wait_queue q st :
  sessions_paired st → sessions_paired (set_wait_queue q st).
Proof.
  intros Hinv key session. rewrite getFromStore_set_wait_queue. apply Hinv.
Qed.

Lemma sessions_paired_setInStore key value st :
  sessions_paired st →
  (∃ u1 u2, users value = [u1; u2] ∧ user_id u1 ≠ user_id u2) →
  sessions_paired (setInStore key value st).
Proof.
  intros Hinv Hval key' session.
  destruct (decide (key = key')) as [<-|Hne].
  - rewrite getFromStore_setInStore. by intros [= <-].
  - rewrite getFromStore_setInStore_ne by done. apply Hinv.
Qed.

(** X17: if every stored session has exactly two users with different
    ids, so it has after any WebSocket message: a session is created
    with the joining user and a match of another id, and no handler
    changes the users of a stored session. *)
Theorem handleWebSocketMessage_keeps_sessions_paired
  `{BadWordsFilter} env clientId message s :
  sessions_paired (store s) →
  sessions_paired (store (handleWebSocketMessage env clientId message s).1).
Proof.
  intros Hinv. unfold handleWebSocketMessage.
  destruct (clients_get clientId (clients s)) as [client|] eqn:Hc; [|done].
  destruct message; try done.
  - unfold handleJoinQueue. rewrite Hc.
    destruct (findMatch_set user (store s)) as [q Hq].
    pose proof (findMatch_result_eligible user (store s)) as Hel.
    destruct (findMatch user (store s)) as [[match_|] st1]; simpl in *; subst.
    + destruct (Hel match_ eq_refl) as (score & (Hne & _) & _).
      assert (sessions_paired
                (setInStore ("session:" +:+ uuid1 env)
                   {| session_id := uuid1 env; users := [user; match_];
                      sharedTags :=
                        getSharedTags (user_tags user) (user_tags match_);
                      createdAt := now1 env;
                      messages :=
                        [ {| msg_id := uuid2 env;
                             msg_content :=
                               matched_message
                                 (getSharedTags (user_tags user)
                                    (user_tags match_));
                             msg_userId := "system";
                             msg_timestamp := now2 env;
                             msg_type := TySystem |} ];
                      videoRequested := None |}
                   (set_wait_queue q (store s)))) as Hnew.
      { apply sessions_paired_setInStore;
          [by apply sessions_paired_set_wait_queue|].
        exists user, match_. split; [done|]. simpl in Hne. congruence. }
      by destruct (find_client _ _) as [[? ?]|].
    + rewrite addToQueue_set, set_wait_queue_twice.
      by apply sessions_paired_set_wait_queue.
  - unfold handleLeaveQueue. rewrite Hc.
    destruct (userId client) as [uid|]; [|done].
    destruct (Js.truthy _); [|done]. simpl.
    destruct (removeFromQueue_set uid (store s)) as [q ->].
    by apply sessions_paired_set_wait_queue.
  - unfold handleChatMessage.
    destruct (current_session _ _) as [[[c sid] session]|] eqn:Hcur; [|done].
    apply current_session_stored in Hcur as (_ & _ & Hget).
    destruct (moderateContent _); [|done]. simpl.
    apply sessions_paired_setInStore; [done|]. by apply (Hinv _ _ Hget).
  - unfold handleVideoRequest.
    destruct (current_session _ _) as [[[c sid] session]|] eqn:Hcur; [|done].
    apply current_session_stored in Hcur as (_ & _ & Hget). simpl.
    apply sessions_paired_setInStore; [done|]. by apply (Hinv _ _ Hget).
  - unfold handleVideoResponse.
    destruct (current_session _ _) as [[[c sid] session]|] eqn:Hcur; [|done].
    apply current_session_stored in Hcur as (_ & _ & Hget). simpl.
    apply sessions_paired_setInStore; [done|].
    destruct accepted as [[]|]; by apply (Hinv _ _ Hget).
  - unfold handleSessionEnd.
    destruct (current_session _ _) as [[[? ?] ?]|]; [|done].
    destruct (find_other _ _); [|done].
    by destruct (find_client _ _) as [[? ?]|].
Qed.

Lemma sessions_paired_initial q blocked :
  sessions_paired (Scenario.memory_store q blocked).
Proof.
  intros key session. unfold getFromStore. simpl.
  by rewrite lookup_empty.
Qed.

Lemma handleWebSocketMessage_keeps_sessions_paired_witness :
  sessions_paired
    (store (@handleWebSocketMessage Scenario.mask_filter Scenario.env2 "c2"
              (join_queue Scenario.alice) Scenario.bob_waiting).1).
Proof.
  apply (@handleWebSocketMessage_keeps_sessions_paired Scenario.mask_filter).
  apply (sessions_paired_initial [Scenario.bob] ∅).
Defined.

(** ** Joining, end to end *)

(** Settle the [decide]s of the goal that [done] can settle. *)
Ltac resolve_decide :=
  repeat match goal with
    | |- context [decide ?P] =>
        first [ rewrite (decide_True (P := P)) by done
              | rewrite (decide_False (P := P)) by done ]
    end.

Lemma findMatch_empty user st :
  wait_queue st = [] → findMatch user st = (None, st).
Proof.
  intros Hq. unfold findMatch. by rewrite getQueueLength_wait_queue, Hq.
Qed.

Lemma findMatch_single user st x :
  wait_queue st = [x] → eligibleb user st x = true →
  findMatch user st = (Some x, set_wait_queue [] st).
Proof.
  intros Hq Hx. unfold findMatch. rewrite getQueueLength_wait_queue, Hq.
  pose proof (drain_round user 0 [] [] x st) as Hd.
  simpl app in Hd. rewrite <- Hq, set_wait_queue_id, Hx in Hd.
  cbn [length]. rewrite Hd. done.
Qed.

(** X18: on a store with an empty queue and two fresh connections, a
    first user who joins is queued and gets no frame; when a second
    user with another id, not blocked with the first and sharing a tag,
    joins on the other connection, both connections receive match_found
    with one and the same session (the joiner first), the session is
    stored under its id with the users [second, first], both
    connections reference it, the queue is empty again, and the first
    user's timer then fires without sending anything. *)
Theorem join_then_join_pairs (first second : User) st cx cy envx envy :
  wait_queue st = [] →
  cx ≠ cy →
  user_id first ≠ user_id second →
  isBlocked (user_id second) (user_id first) st = false →
  (0 < calculateMatchScore (user_tags second) (user_tags first))%nat →
  uuid1 envy ≠ "" →
  let r1 := handleJoinQueue envx cx first (Cases.two_connections st cx cy) in
  let r2 := handleJoinQueue envy cy second r1.1 in
  r1.2 = []
  ∧ wait_queue (store r1.1) = [first]
  ∧ timers r1.1 = [cx]
  ∧ (∃ session,
       r2.2 = [(cy, match_found session); (cx, match_found session)]
       ∧ session_id session = uuid1 envy
       ∧ users session = [second; first]
       ∧ getFromStore ("session:" +:+ uuid1 envy) (store r2.1) = Some session)
  ∧ wait_queue (store r2.1) = []
  ∧ clients r2.1
    = [(cx, mkClient (Some (user_id first)) (Some (uuid1 envy)));
       (cy, mkClient (Some (user_id second)) (Some (uuid1 envy)))]
  ∧ (queueTimeout cx r2.1).2 = [].
Proof.
  intros Hq Hne Hids Hblk Hscore Hsid r1 r2.
  assert (r1 = (mkState (set_wait_queue [first] st)
                  [(cx, mkClient (Some (user_id first)) None);
                   (cy, mkClient None None)] [cx], [])) as Hr1.
  { unfold r1, handleJoinQueue, Cases.two_connections. simpl.
    rewrite !decide_True by done. rewrite (findMatch_empty _ _ Hq). simpl.
    rewrite addToQueue_set, Hq. by destruct (useRedis st). }
  assert (eligibleb second st first = true) as Hel.
  { unfold eligibleb. rewrite Hblk, bool_decide_eq_false_2 by done.
    simpl. by apply Nat.ltb_lt. }
  unfold r2. rewrite Hr1. clear r1 r2 Hr1.
  unfold handleJoinQueue, find_client, queueTimeout. simpl.
  rewrite (findMatch_single second (set_wait_queue [first] st) first)
    by (by rewrite ?wait_queue_set, ?eligibleb_set_wait_queue).
  rewrite set_wait_queue_twice.
  assert (cy ≠ cx) as Hne' by done.
  assert (Some (user_id second) ≠ Some (user_id first)) as Hids'
    by congruence.
  apply String.eqb_neq in Hsid.
  repeat (resolve_decide; simpl).
  rewrite getFromStore_setInStore, wait_queue_setInStore, !wait_queue_set, Hsid.
  repeat split; try done.
  eexists. repeat split; reflexivity.
Qed.

Lemma join_then_join_pairs_witness :
  let r1 := handleJoinQueue Scenario.env1 "c1" Cases.erin
              (Cases.two_connections (Scenario.redis_store [] ∅) "c1" "c2") in
  let r2 := handleJoinQueue Scenario.env2 "c2" Cases.frank r1.1 in
  wait_queue (store r1.1) = [Cases.erin]
  ∧ wait_queue (store r2.1) = []
  ∧ (queueTimeout "c1" r2.1).2 = [].
Proof.
  pose proof (join_then_join_pairs Cases.erin Cases.frank
                (Scenario.redis_store [] ∅) "c1" "c2"
                Scenario.env1 Scenario.env2 eq_refl
                ltac:(discriminate) ltac:(discriminate) eq_refl
                ltac:(vm_compute; lia) ltac:(discriminate))
    as (_ & H1 & _ & _ & H2 & _ & H3).
  repeat split; assumption.
Defined.

(** ** Ending a session and closing a connection *)

Lemma current_session_no_reference clientId s c :
  clients_get clientId (clients s) = Some c → sessionId c = None →
  current_session clientId s = None.
Proof. unfold current_session. by intros -> ->. Qed.

(** X19: [handleSessionEnd] on a connection with a stored session
    leaves the store as it is (the session record stays readable under
    its key), tells the peer's connection, and clears the session
    reference of the sender and of the peer that was told: neither has
    a current session afterwards, so their later chat or video messages
    are dropped. *)
Theorem handleSessionEnd_clears_references clientId s client sid session :
  current_session clientId s = Some (client, sid, session) →
  store (handleSessionEnd clientId s).1 = store s
  ∧ getFromStore ("session:" +:+ sid) (store (handleSessionEnd clientId s).1)
    = Some session
  ∧ (handleSessionEnd clientId s).2
    = notify_other client session (clients s) session_ended
  ∧ current_session clientId (handleSessionEnd clientId s).1 = None
  ∧ (∀ otherId, (otherId, session_ended) ∈ (handleSessionEnd clientId s).2 →
       current_session otherId (handleSessionEnd clientId s).1 = None).
Proof.
  intros Hcur.
  destruct (current_session_stored _ _ _ _ _ Hcur) as (Hc & Hsid & Hget).
  unfold handleSessionEnd, notify_other. rewrite Hcur.
  destruct (find_other client (users session)) as [otherUser|]; simpl.
  - destruct (find_client _ _) as [[otherId oc]|] eqn:Hfind; simpl.
    + repeat split; try done.
      * eapply current_session_no_reference; simpl.
        -- rewrite clients_get_update, decide_True by done.
           rewrite clients_get_update.
           destruct (decide (clientId = otherId)); by rewrite Hc.
        -- done.
      * intros k [[= ->]|Hin%elem_of_nil]%elem_of_cons; [|done].
        destruct (find_client_registered _ _ _ _ Hfind) as [c' Hc'].
        unfold current_session. simpl.
        rewrite clients_get_update, clients_get_update.
        rewrite (decide_True (P := otherId = otherId)) by done.
        rewrite Hc'. simpl. by destruct (decide (otherId = clientId)).
    + repeat split; try done.
      * eapply current_session_no_reference; simpl.
        -- by rewrite clients_get_update, decide_True, Hc.
        -- done.
      * by intros k Hk%elem_of_nil.
  - repeat split; try done.
    + eapply current_session_no_reference; simpl.
      * by rewrite clients_get_update, decide_True, Hc.
      * done.
    + by intros k Hk%elem_of_nil.
Qed.

Lemma handleSessionEnd_clears_references_witness :
  (handleSessionEnd "c2" Scenario.paired).2 = [("c1", session_ended)]
  ∧ current_session "c2" (handleSessionEnd "c2" Scenario.paired).1 = None
  ∧ current_session "c1" (handleSessionEnd "c2" Scenario.paired).1 = None.
Proof.
  pose proof (handleSessionEnd_clears_references "c2" Scenario.paired
                (mkClient (Some "alice") (Some "s2")) "s2"
                (mkSession "s2" [Scenario.alice; Scenario.bob] ["Math"] 2000
                   [mkChatMessage "m2"
                      "You've been matched! You both study: Math" "system"
                      2001 TySystem] None)
                ltac:(vm_compute; reflexivity)) as (_ & _ & Hsent & Hown & Hpeer).
  split; [exact Hsent|]. split; [exact Hown|].
  apply Hpeer. rewrite Hsent. left.
Defined.

(** X20: closing a connection removes it from the registry and nothing
    else: the other connections and the whole store stay as they are, so
    a wait entry of the connection's user stays in the queue. Afterwards
    the connection's timer fires without sending, and a message handled
    for that client id changes nothing. *)
Theorem handleClose_removes_only_the_connection `{BadWordsFilter}
  clientId s :
  store (handleClose clientId s).1 = store s
  ∧ clients_get clientId (clients (handleClose clientId s).1) = None
  ∧ (∀ k, k ≠ clientId →
       clients_get k (clients (handleClose clientId s).1)
       = clients_get k (clients s))
  ∧ (queueTimeout clientId (handleClose clientId s).1).2 = []
  ∧ (∀ env message,
       handleWebSocketMessage env clientId message (handleClose clientId s).1
       = ((handleClose clientId s).1, [])).
Proof.
  assert (clients_get clientId (clients (handleClose clientId s).1) = None)
    as Hgone.
  { simpl. by rewrite clients_get_delete, decide_True. }
  repeat split; try done.
  - intros k Hk. simpl. by rewrite clients_get_delete, decide_False.
  - unfold queueTimeout. destruct (list_find _ _) as [[i ?]|]; [|done].
    by rewrite Hgone.
  - intros env message. unfold handleWebSocketMessage. by rewrite Hgone.
Qed.

Lemma handleClose_removes_only_the_connection_witness :
  clients_get "c2" (clients (handleClose "c1" Scenario.paired).1)
  = clients_get "c2" (clients Scenario.paired).
Proof.
  apply (proj1 (proj2 (proj2 (@handleClose_removes_only_the_connection
                                Scenario.mask_filter "c1" Scenario.paired)))
           "c2").
  discriminate.
Defined.

(** ** What a match guarantees *)

Lemma shared_of_positive_score tags1 tags2 :
  (0 < calculateMatchScore tags1 tags2)%nat → getSharedTags tags1 tags2 ≠ [].
Proof.
  unfold calculateMatchScore. intros Hlen Hnil.
  destruct (Js.new_Set _) as [|x l] eqn:Hset; [simpl in Hlen; lia|].
  assert (x ∈ x :: l) as Hx by left. rewrite <- Hset in Hx.
  apply elem_of_intersection in Hx as [H1 H2].
  apply list_elem_of_fmap in H1 as (t1 & -> & H1).
  assert (t1 ∈ getSharedTags tags1 tags2) as Hin.
  { rewrite getSharedTags_spec. by apply list_elem_of_filter. }
  rewrite Hnil in Hin. by apply elem_of_nil in Hin.
Qed.

(** X21: every match_found frame that [handleJoinQueue] sends carries a
    session between the joining user and a user of another id who is not
    blocked with them, and its list of shared tags is never empty. *)
Theorem handleJoinQueue_match_found_session env clientId user s to session :
  (to, match_found session) ∈ (handleJoinQueue env clientId user s).2 →
  sharedTags session ≠ []
  ∧ ∃ other, users session = [user; other]
      ∧ user_id other ≠ user_id user
      ∧ isBlocked (user_id user) (user_id other) (store s) = false
      ∧ other ∈ wait_queue (store s).
Proof.
  unfold handleJoinQueue.
  destruct (clients_get _ _); [|by intros ?%elem_of_nil].
  pose proof (findMatch_result_eligible user (store s)) as Hel.
  destruct (findMatch user (store s)) as [[match_|] st1];
    [|by intros ?%elem_of_nil].
  destruct (Hel match_ eq_refl) as (score & (Hne & Hblk & -> & Hpos) & Hin).
  simpl in *.
  assert (∀ session',
    session' = {| session_id := uuid1 env; users := [user; match_];
                  sharedTags :=
                    getSharedTags (user_tags user) (user_tags match_);
                  createdAt := now1 env;
                  messages :=
                    [ {| msg_id := uuid2 env;
                         msg_content :=
                           matched_message
                             (getSharedTags (user_tags user)
                                (user_tags match_));
                         msg_userId := "system";
                         msg_timestamp := now2 env;
                         msg_type := TySystem |} ];
                  videoRequested := None |} →
    sharedTags session' ≠ []
    ∧ ∃ other, users session' = [user; other]
        ∧ user_id other ≠ user_id user
        ∧ isBlocked (user_id user) (user_id other) (store s) = false
        ∧ other ∈ wait_queue (store s)) as Hok.
  { intros session' ->. simpl. split; [by apply shared_of_positive_score|].
    by exists match_. }
  destruct (find_client _ _) as [[matchId ?]|]; simpl;
    rewrite ?elem_of_cons, ?elem_of_nil;
    intros Hfr; apply Hok; destruct_or?; by simplify_eq.
Qed.

Lemma handleJoinQueue_match_found_session_witness :
  sharedTags
    (mkSession "s2" [Scenario.alice; Scenario.bob] ["Math"] 2000
       [mkChatMessage "m2" "You've been matched! You both study: Math"
          "system" 2001 TySystem] None) ≠ []
  ∧ ∃ other,
      users
        (mkSession "s2" [Scenario.alice; Scenario.bob] ["Math"] 2000
           [mkChatMessage "m2" "You've been matched! You both study: Math"
              "system" 2001 TySystem] None) = [Scenario.alice; other]
      ∧ user_id other ≠ user_id Scenario.alice
      ∧ isBlocked (user_id Scenario.alice) (user_id other)
          (store Scenario.bob_waiting) = false
      ∧ other ∈ wait_queue (store Scenario.bob_waiting).
Proof.
  apply (handleJoinQueue_match_found_session Scenario.env2 "c2"
           Scenario.alice Scenario.bob_waiting "c1").
  vm_compute. right. left.
Defined.

(** ** Blocking over the API *)

(** The handler of POST /api/block on its own: 404 and no change when the
    session is not stored; for a stored session of two users with
    different ids, a block on behalf of the first user unless the id to
    block is the first user's. *)
Lemma postBlock_cases sessionId blockedUserId st :
  (getFromStore ("session:" +:+ sessionId) st = None →
   postBlock sessionId blockedUserId st
   = (st, json_error 404 "Session not found"))
  ∧ (∀ session u1 u2,
       getFromStore ("session:" +:+ sessionId) st = Some session →
       users session = [u1; u2] → user_id u1 ≠ user_id u2 →
       postBlock sessionId blockedUserId st
       = (blockUser
            (if decide (user_id u1 = blockedUserId) then user_id u2
             else user_id u1) blockedUserId st,
          json_success "User blocked successfully")).
Proof.
  unfold postBlock. split.
  - by intros ->.
  - intros session u1 u2 -> -> Hne. simpl.
    destruct (decide (user_id u1 = blockedUserId)) as [Heq|Hne1].
    + rewrite decide_False by (by intros ?). simpl.
      rewrite decide_True by congruence. done.
    + by rewrite decide_True.
Qed.

Lemma blockUser_timer_undoes a b st :
  useRedis st = false →
  blockTimers (memoryStore st) = [] →
  a +:+ ":" +:+ b ∉ blockedPairs (memoryStore st) →
  blockTimerFires (blockUser a b st) = st.
Proof.
  intros Hr Hts Hnew. unfold blockUser, blockTimerFires, with_memory.
  rewrite Hr. simpl. rewrite Hts. simpl.
  assert (({[a +:+ ":" +:+ b]} ∪ blockedPairs (memoryStore st))
            ∖ {[a +:+ ":" +:+ b]}
          = blockedPairs (memoryStore st)) as ->.
  { apply set_eq. intros x.
    rewrite elem_of_difference, elem_of_union, elem_of_singleton.
    split; [tauto|]. intros Hx. split; [tauto|]. by intros ->. }
  destruct st as [r rc [ss q bp rp ts]]. simpl in *. by subst.
Qed.

(** X22: POST /api/block counts every request of an address against the
    limit of [/api/]. A request over the limit (the address has already
    made 100 in the window) is answered 429 and changes nothing in the
    store. A request within the limit answers 404 and changes nothing
    when the session is not stored; for a stored session of two users
    with different ids it never answers 400 but always blocks and
    succeeds, the blocker being the first user unless the id to block is
    the first user's, in which case it is the second. The id to block is
    not checked against the session: an id that belongs to neither user
    is blocked on behalf of the first user. In memory the block lasts
    until its timer fires 1 millisecond later: with no other timer
    pending and the pair not blocked before, the store is then what it
    was before the request. *)
Theorem apiBlock_outcomes ip sessionId blockedUserId a :
  apiHits (apiBlock ip sessionId blockedUserId a).1
  = <[ip := S (hits_of ip (apiHits a))]> (apiHits a)
  ∧ ((100 ≤ hits_of ip (apiHits a))%nat →
     (apiBlock ip sessionId blockedUserId a).2 = tooManyRequests
     ∧ api_store (apiBlock ip sessionId blockedUserId a).1 = api_store a)
  ∧ ((hits_of ip (apiHits a) < 100)%nat →
     (getFromStore ("session:" +:+ sessionId) (api_store a) = None →
      (apiBlock ip sessionId blockedUserId a).2
      = json_error 404 "Session not found"
      ∧ api_store (apiBlock ip sessionId blockedUserId a).1 = api_store a)
     ∧ (∀ session u1 u2,
          getFromStore ("session:" +:+ sessionId) (api_store a)
          = Some session →
          users session = [u1; u2] → user_id u1 ≠ user_id u2 →
          let blocker :=
            if decide (user_id u1 = blockedUserId) then user_id u2
            else user_id u1 in
          (apiBlock ip sessionId blockedUserId a).2
          = json_success "User blocked successfully"
          ∧ api_store (apiBlock ip sessionId blockedUserId a).1
            = blockUser blocker blockedUserId (api_store a)
          ∧ (useRedis (api_store a) = false →
             blockTimers (memoryStore (api_store a)) = [] →
             blocker +:+ ":" +:+ blockedUserId
               ∉ blockedPairs (memoryStore (api_store a)) →
             blockTimerFires
               (api_store (apiBlock ip sessionId blockedUserId a).1)
             = api_store a))).
Proof.
  assert (apiBlock ip sessionId blockedUserId a
          = if bool_decide (S (hits_of ip (apiHits a)) ≤ 100)%nat
            then (mkApi (postBlock sessionId blockedUserId (api_store a)).1
                    (<[ip := S (hits_of ip (apiHits a))]> (apiHits a))
                    (matchHits a) (reportHits a),
                  (postBlock sessionId blockedUserId (api_store a)).2)
            else (mkApi (api_store a)
                    (<[ip := S (hits_of ip (apiHits a))]> (apiHits a))
                    (matchHits a) (reportHits a),
                  tooManyRequests)) as Hroute.
  { unfold apiBlock, rateLimit, apiLimit. simpl.
    destruct (bool_decide (S (hits_of ip (apiHits a)) ≤ 100)%nat); [|done].
    simpl. by destruct (postBlock _ _ _). }
  rewrite !Hroute.
  destruct (postBlock_cases sessionId blockedUserId (api_store a))
    as [Hmissing Hstored].
  split; [by destruct (bool_decide _)|]. split.
  - intros Hover. by rewrite bool_decide_eq_false_2 by lia.
  - intros Hunder. rewrite bool_decide_eq_true_2 by lia. simpl. split.
    + intros Hnone. by rewrite (Hmissing Hnone).
    + intros session u1 u2 Hsome Husers Hne. cbv zeta.
      rewrite (Hstored session u1 u2 Hsome Husers Hne). simpl.
      split; [done|]. split; [done|]. apply blockUser_timer_undoes.
Qed.

Lemma apiBlock_outcomes_witness :
  (apiBlock "10.0.0.1" "s2" "mallory"
     (mkApi (store Scenario.paired) {["10.0.0.1" := 100]} ∅ ∅)).2
  = tooManyRequests
  ∧ (apiBlock "10.0.0.1" "nope" "bob"
       (mkApi (store Scenario.paired) ∅ ∅ ∅)).2
    = json_error 404 "Session not found"
  ∧ api_store
      (apiBlock "10.0.0.1" "s2" "mallory"
         (mkApi (store Scenario.paired) ∅ ∅ ∅)).1
    = blockUser "alice" "mallory" (store Scenario.paired).
Proof.
  destruct (apiBlock_outcomes "10.0.0.1" "s2" "mallory"
              (mkApi (store Scenario.paired) {["10.0.0.1" := 100]} ∅ ∅))
    as (_ & Hover & _).
  destruct (apiBlock_outcomes "10.0.0.1" "nope" "bob"
              (mkApi (store Scenario.paired) ∅ ∅ ∅))
    as (_ & _ & Hmissing).
  destruct (apiBlock_outcomes "10.0.0.1" "s2" "mallory"
              (mkApi (store Scenario.paired) ∅ ∅ ∅))
    as (_ & _ & Hstored).
  split; [apply Hover; vm_compute; lia|].
  split.
  - apply Hmissing; [vm_compute; lia|vm_compute; reflexivity].
  - destruct Hstored as [_ Hstored]; [vm_compute; lia|].
    apply (Hstored
             (mkSession "s2" [Scenario.alice; Scenario.bob] ["Math"] 2000
                [mkChatMessage "m2"
                   "You've been matched! You both study: Math" "system"
                   2001 TySystem] None)
             Scenario.alice Scenario.bob).
    + vm_compute. reflexivity.
    + reflexivity.
    + discriminate.
Defined.

Lemma isBlocked_blockTimerFires_redis a b st :
  useRedis st = true → isBlocked a b (blockTimerFires st) = isBlocked a b st.
Proof. unfold isBlocked, blockTimerFires, with_memory. by intros ->. Qed.

(** X23: in the store that [blockUser a b] returns, [findMatch] pairs
    the two ids in neither direction: a candidate with id [a] is never
    given an entry with id [b], nor a candidate with id [b] an entry
    with id [a], whatever the queue holds. On Redis, where the call arms
    no timer, a timer of an earlier in-memory block that fires does not
    change this. In memory it holds only until the timer of the call
    fires, 1 millisecond later: after that the pair is matched like any
    other, as for carol and dave. *)
Theorem blocked_pair_never_matched a b st candidate e :
  (user_id candidate = a ∧ user_id e = b)
  ∨ (user_id candidate = b ∧ user_id e = a) →
  (findMatch candidate (blockUser a b st)).1 ≠ Some e
  ∧ (useRedis st = true →
     (findMatch candidate (blockTimerFires (blockUser a b st))).1 ≠ Some e)
  ∧ (findMatch Scenario.dave
       (blockUser "carol" "dave" (Scenario.memory_store [Scenario.carol] ∅))).1
    = None
  ∧ (findMatch Scenario.dave
       (blockTimerFires
          (blockUser "carol" "dave"
             (Scenario.memory_store [Scenario.carol] ∅)))).1
    = Some Scenario.carol.
Proof.
  intros Hids.
  assert (∀ st', isBlocked a b st' = true →
                 (findMatch candidate st').1 ≠ Some e) as Hnever.
  { intros st' Hab Hres.
    destruct (findMatch_result_eligible _ _ _ Hres)
      as (score & (_ & Hblk & _) & _). simpl in Hblk.
    destruct Hids as [[<- <-]|[<- <-]]; [congruence|].
    revert Hab Hblk. unfold isBlocked.
    destruct (useRedis _); rewrite orb_comm; congruence. }
  split; [apply Hnever, blockUser_isBlocked|].
  split; [|split; vm_compute; reflexivity].
  intros Hr. apply Hnever.
  rewrite isBlocked_blockTimerFires_redis
    by (by rewrite useRedis_blockUser).
  apply blockUser_isBlocked.
Qed.

Lemma blocked_pair_never_matched_witness :
  (findMatch Scenario.dave
     (blockUser "carol" "dave"
        (Scenario.redis_store [Scenario.carol] ∅))).1 ≠ Some Scenario.carol
  ∧ (findMatch Scenario.dave
       (blockTimerFires
          (blockUser "carol" "dave"
             (Scenario.redis_store [Scenario.carol] ∅)))).1
    ≠ Some Scenario.carol.
Proof.
  destruct (blocked_pair_never_matched "carol" "dave"
              (Scenario.redis_store [Scenario.carol] ∅)
              Scenario.dave Scenario.carol) as (Hnow & Hlater & _).
  - right. split; reflexivity.
  - split; [exact Hnow|apply Hlater; reflexivity].
Defined.

(** ** Video negotiation *)

(** X24: when one member of a stored session sends a video_request and
    the other answers it, the stored record is the requester's id with
    status accepted if the answer accepts, and no record at all if it
    declines. *)
Theorem video_request_then_response c1 c2 s client1 client2 sid session
  requester offer (accepted : bool) answer :
  current_session c1 s = Some (client1, sid, session) →
  current_session c2 s = Some (client2, sid, session) →
  videoRequested <$>
    getFromStore ("session:" +:+ sid)
      (store (handleVideoResponse c2 (Some accepted) answer
                (handleVideoRequest c1 requester offer s).1).1)
  = Some (if accepted then Some (mkVideoRequested requester Accepted)
          else None).
Proof.
  intros H1 H2.
  destruct (current_session_stored _ _ _ _ _ H2) as (Hc2 & Hsid2 & _).
  unfold handleVideoRequest. rewrite H1. simpl.
  unfold handleVideoResponse, current_session at 1. simpl.
  rewrite Hc2, Hsid2.
  unfold current_session in H2. rewrite Hc2, Hsid2 in H2.
  unfold Js.truthy in *. destruct (negb _); [|done].
  rewrite getFromStore_setInStore. simpl.
  rewrite getFromStore_setInStore. by destruct accepted.
Qed.

Lemma video_request_then_response_witness :
  videoRequested <$>
    getFromStore ("session:" +:+ "s2")
      (store (handleVideoResponse "c1" (Some true) (Js.JStr "answer")
                (handleVideoRequest "c2" (Some "alice") (Js.JStr "offer")
                   Scenario.paired).1).1)
  = Some (if true then Some (mkVideoRequested (Some "alice") Accepted)
          else None).
Proof.
  apply (video_request_then_response "c2" "c1" Scenario.paired
           (mkClient (Some "alice") (Some "s2"))
           (mkClient (Some "bob") (Some "s2")) "s2"
           (mkSession "s2" [Scenario.alice; Scenario.bob] ["Math"] 2000
              [mkChatMessage "m2" "You've been matched! You both study: Math"
                 "system" 2001 TySystem] None));
    vm_compute; reflexivity.
Defined.

(** ** Stored messages *)

Lemma getFromStore_setInStore_cases key key' value st :
  getFromStore key' (setInStore key value st)
  = if decide (key = key') then Some value else getFromStore key' st.
Proof.
  destruct (decide (key = key')) as [<-|Hne].
  - apply getFromStore_setInStore.
  - by apply getFromStore_setInStore_ne.
Qed.

(** X25: no WebSocket message deletes a stored session or edits or
    removes one of its messages: provided the uuid drawn for a new
    session is not in use, a session stored before the handler is stored
    after it under the same key, with the same id and users, and its old
    messages are a prefix of its new ones. *)
Theorem handleWebSocketMessage_messages_append_only
  `{BadWordsFilter} env clientId message s key session :
  getFromStore ("session:" +:+ uuid1 env) (store s) = None →
  getFromStore key (store s) = Some session →
  ∃ session',
    getFromStore key (store (handleWebSocketMessage env clientId message s).1)
    = Some session'
    ∧ messages session `prefix_of` messages session'
    ∧ users session' = users session
    ∧ session_id session' = session_id session.
Proof.
  intros Hfresh Hget.
  assert (∃ session', getFromStore key (store s) = Some session'
            ∧ messages session `prefix_of` messages session'
            ∧ users session' = users session
            ∧ session_id session' = session_id session) as Hsame.
  { exists session. by repeat split. }
  assert (∀ sid session0 (f : MatchSession → MatchSession),
    getFromStore ("session:" +:+ sid) (store s) = Some session0 →
    (∀ x, messages x `prefix_of` messages (f x)
          ∧ users (f x) = users x ∧ session_id (f x) = session_id x) →
    ∃ session',
      getFromStore key
        (setInStore ("session:" +:+ sid) (f session0) (store s))
      = Some session'
      ∧ messages session `prefix_of` messages session'
      ∧ users session' = users session
      ∧ session_id session' = session_id session) as Hupd.
  { intros sid session0 f Hget0 Hf. rewrite getFromStore_setInStore_cases.
    destruct (decide _) as [<-|]; [|done].
    rewrite Hget in Hget0. injection Hget0 as <-.
    exists (f session). split; [done|]. apply Hf. }
  unfold handleWebSocketMessage.
  destruct (clients_get clientId (clients s)) as [client|] eqn:Hc; [|done].
  destruct message; try done.
  - unfold handleJoinQueue. rewrite Hc.
    destruct (findMatch_set user (store s)) as [q Hq].
    destruct (findMatch user (store s)) as [[match_|] st1]; simpl in *; subst.
    + assert (∀ value,
        getFromStore key
          (setInStore ("session:" +:+ uuid1 env) value
             (set_wait_queue q (store s))) = Some session) as Hkeep.
      { intros value. rewrite getFromStore_setInStore_cases.
        destruct (decide _) as [<-|]; [congruence|].
        by rewrite getFromStore_set_wait_queue. }
      destruct (find_client _ _) as [[? ?]|]; simpl;
        exists session; by rewrite Hkeep.
    + exists session.
      by rewrite addToQueue_set, set_wait_queue_twice,
        getFromStore_set_wait_queue.
  - unfold handleLeaveQueue. rewrite Hc.
    destruct (userId client) as [uid|]; [|done].
    destruct (Js.truthy _); [|done]. simpl.
    destruct (removeFromQueue_set uid (store s)) as [q ->].
    exists session. by rewrite getFromStore_set_wait_queue.
  - unfold handleChatMessage.
    destruct (current_session _ _) as [[[c sid] session0]|] eqn:Hcur; [|done].
    apply current_session_stored in Hcur as (_ & _ & Hget0).
    destruct (moderateContent _) as [moderated|]; [|done]. simpl.
    apply (Hupd sid session0
             (λ x, set_messages
                     (messages x
                      ++ [ {| msg_id := msg_id payload;
                              msg_content := mod_content moderated;
                              msg_userId := msg_userId payload;
                              msg_timestamp := now1 env;
                              msg_type := msg_type payload |} ]) x));
      [done|].
    intros x. simpl. split; [by apply prefix_app_r|done].
  - unfold handleVideoRequest.
    destruct (current_session _ _) as [[[c sid] session0]|] eqn:Hcur; [|done].
    apply current_session_stored in Hcur as (_ & _ & Hget0). simpl.
    by apply (Hupd sid session0
                (set_videoRequested
                   (Some {| requesterId := requester; status := Pending |}))).
  - unfold handleVideoResponse.
    destruct (current_session _ _) as [[[c sid] session0]|] eqn:Hcur; [|done].
    apply current_session_stored in Hcur as (_ & _ & Hget0). simpl.
    destruct accepted as [[]|].
    + by apply (Hupd sid session0
                  (λ x, set_videoRequested
                          (Some {| requesterId :=
                                     videoRequested x ≫= requesterId;
                                   status := Accepted |}) x)).
    + by apply (Hupd sid session0 (set_videoRequested None)).
    + by apply (Hupd sid session0 (λ x, x)).
  - unfold handleSessionEnd.
    destruct (current_session _ _) as [[[? ?] ?]|]; [|done].
    destruct (find_other _ _); [|done].
    by destruct (find_client _ _) as [[? ?]|].
Qed.

Lemma handleWebSocketMessage_messages_append_only_witness :
  ∃ session',
    getFromStore "session:s2"
      (store (@handleWebSocketMessage Scenario.mask_filter Cases.env3 "c2"
                (chat (mkChatMessage "m7" "damn it" "alice" 0 TyMessage))
                Scenario.paired).1)
    = Some session'
    ∧ messages
        (mkSession "s2" [Scenario.alice; Scenario.bob] ["Math"] 2000
           [mkChatMessage "m2" "You've been matched! You both study: Math"
              "system" 2001 TySystem] None)
      `prefix_of` messages session'
    ∧ users session' = [Scenario.alice; Scenario.bob]
    ∧ session_id session' = "s2".
Proof.
  apply (@handleWebSocketMessage_messages_append_only Scenario.mask_filter
           Cases.env3 "c2"
           (chat (mkChatMessage "m7" "damn it" "alice" 0 TyMessage))
           Scenario.paired "session:s2"
           (mkSession "s2" [Scenario.alice; Scenario.bob] ["Math"] 2000
              [mkChatMessage "m2" "You've been matched! You both study: Math"
                 "system" 2001 TySystem] None));
    vm_compute; reflexivity.
Defined.

(** ** Leaving, then matching *)

Lemma removeFromQueue_redis_entries userId st :
  useRedis st = true →
  entries_of userId (wait_queue (removeFromQueue userId st)) = 0.
Proof.
  intros Hr. rewrite removeFromQueue_redis, wait_queue_set by done.
  unfold entries_of. apply length_zero_iff_nil.
  induction (wait_queue st) as [|u q IH]; [done|].
  rewrite filter_cons. destruct (decide (user_id u ≠ userId)) as [Hne|]; [|done].
  by rewrite filter_cons, decide_False.
Qed.

Lemma removeFromQueue_memory_first userId st pre u post :
  useRedis st = false →
  wait_queue st = pre ++ u :: post →
  user_id u = userId →
  Forall (λ v, user_id v ≠ userId) pre →
  removeFromQueue userId st = set_wait_queue (pre ++ post) st.
Proof.
  intros Hr Hq Hu Hpre.
  unfold removeFromQueue, wait_queue, set_wait_queue in *.
  rewrite Hr in *. rewrite Hq.
  rewrite (findIndex_first _ pre u post).
  - unfold with_memory. simpl. by rewrite Hq, delete_middle.
  - eapply Forall_impl; [exact Hpre|]. intros v Hv.
    by apply bool_decide_eq_false.
  - by apply bool_decide_eq_true.
Qed.

Lemma entries_of_split uid q :
  (0 < entries_of uid q)%nat →
  ∃ pre u post, q = pre ++ u :: post ∧ user_id u = uid
    ∧ Forall (λ v, user_id v ≠ uid) pre.
Proof.
  unfold entries_of. induction q as [|x q IH]; [simpl; lia|].
  rewrite filter_cons. destruct (decide (user_id x = uid)) as [Hx|Hx].
  - intros _. exists [], x, q. by repeat split.
  - intros Hpos. destruct (IH Hpos) as (pre & u & post & -> & Hu & Hpre).
    exists (x :: pre), u, post. repeat split; [done|]. by constructor.
Qed.

(** X26: after leave_queue on a connection whose user has at most one
    wait entry, or any number of entries on the Redis backend, no wait
    entry of that user is left, so [findMatch] returns that user to
    nobody. *)
Theorem leave_queue_then_never_matched clientId s client uid :
  clients_get clientId (clients s) = Some client →
  userId client = Some uid → uid ≠ "" →
  useRedis (store s) = true
  ∨ (entries_of uid (wait_queue (store s)) ≤ 1)%nat →
  (handleLeaveQueue clientId s).2 = [(clientId, queue_left true)]
  ∧ entries_of uid (wait_queue (store (handleLeaveQueue clientId s).1)) = 0
  ∧ (∀ candidate e,
       (findMatch candidate (store (handleLeaveQueue clientId s).1)).1
       = Some e → user_id e ≠ uid).
Proof.
  intros Hc Huid Hne Hcase.
  unfold handleLeaveQueue. rewrite Hc, Huid. simpl.
  apply String.eqb_neq in Hne. rewrite Hne. simpl.
  assert (entries_of uid (wait_queue (removeFromQueue uid (store s))) = 0)
    as Hzero.
  { destruct (useRedis (store s)) eqn:Hr.
    - by apply removeFromQueue_redis_entries.
    - destruct Hcase as [|Hle]; [done|].
      destruct (decide (entries_of uid (wait_queue (store s)) = 0)) as [H0|H0].
      + by rewrite removeFromQueue_absent.
      + destruct (entries_of_split uid (wait_queue (store s)))
          as (pre & u & post & Hq & Hu & Hpre); [lia|].
        rewrite (removeFromQueue_memory_first uid _ pre u post)
          by done.
        rewrite wait_queue_set. rewrite Hq in Hle.
        unfold entries_of in *.
        rewrite filter_app, length_app, filter_cons, decide_True in Hle
          by done.
        simpl in Hle. rewrite filter_app, length_app. lia. }
  repeat split; [done|].
  intros candidate e Hres Heq.
  destruct (findMatch_result_eligible _ _ _ Hres) as (_ & _ & Hin).
  apply entries_of_0 in Hzero.
  by apply (proj1 (Forall_forall _ _) Hzero e Hin).
Qed.

Lemma leave_queue_then_never_matched_witness :
  entries_of "bob"
    (wait_queue (store (handleLeaveQueue "c1" Scenario.bob_waiting).1)) = 0.
Proof.
  apply (leave_queue_then_never_matched "c1" Scenario.bob_waiting
           (mkClient (Some "bob") None) "bob").
  - vm_compute. reflexivity.
  - reflexivity.
  - discriminate.
  - right. vm_compute. lia.
Defined.
